(** * Structural differ for two Merkle Patricia Tries

    Shallow embedding of [python/mpt/src/mpt/trie_diff.py]: the node
    resolver [resolve], the recursive walker [StateDiff._compute_diff],
    the two leaf handlers, the entry point [StateDiff.from_tries] and the
    JSON parser [StateDiff.from_data].

    Python objects are modelled by the data they carry: [bytes] is a list
    of integers (one per byte), a [dict] is a [gmap], an exception is the
    [Raise] outcome of the [result] type, and the call stack is bounded by
    an explicit depth, as the interpreter's recursion limit bounds it. *)

From Stdlib Require Import ZArith List Bool Lia Ascii String.
From stdpp Require Import base option list gmap strings fin_maps.

Set Warnings "-register-all".
Local Open Scope Z_scope.

(** ** Python values and exceptions *)

(** [bytes], [Bytes], [Bytes32], [Hash32], [Address]: a sequence of bytes,
    each an integer.  A nibble path holds one nibble per byte. *)
Definition Bytes : Type := list Z.

(** The exception classes the module can surface.  [BadBranch] and
    [DecodingError] stand for whatever the helpers of [mpt.utils] and the
    RLP library raise. *)
Inductive exn : Type :=
| ValueError
| KeyError
| IndexError
| TypeError
| AttributeError
| OverflowError
| RecursionError
| BadBranch
| DecodingError.

Inductive result (A : Type) : Type :=
| OK (a : A)
| Raise (e : exn).
Arguments OK {A} a.
Arguments Raise {A} e.

Definition bind {A B : Type} (m : result A) (k : A -> result B) : result B :=
  match m with
  | OK a => k a
  | Raise e => Raise e
  end.

Declare Scope py_scope.
Delimit Scope py_scope with py.
Notation "x <- m ;; k" := (bind m (fun x => k))
  (at level 100, m at next level, right associativity) : py_scope.
Notation "m ;;; k" := (bind m (fun _ => k))
  (at level 100, right associativity) : py_scope.
Local Open Scope py_scope.

(** [for x in xs: body] over a state threaded through the iterations; an
    exception in one iteration ends the loop. *)
Fixpoint for_each {I S : Type} (xs : list I) (body : I -> S -> result S)
    (s : S) : result S :=
  match xs with
  | [] => OK s
  | x :: xs' => s' <- body x s ;; for_each xs' body s'
  end.

(** [range(0, 16)] *)
Definition range16 : list Z :=
  [0; 1; 2; 3; 4; 5; 6; 7; 8; 9; 10; 11; 12; 13; 14; 15].

(** [seq[i]] for a non-negative index: [IndexError] out of range. *)
Definition index {A : Type} (l : list A) (i : Z) : result A :=
  match nth_error l (Z.to_nat i) with
  | Some x => OK x
  | None => Raise IndexError
  end.

(** [d[k]] on a dict: [KeyError] when the key is missing. *)
Definition getitem {V : Type} (d : gmap Bytes V) (k : Bytes) : result V :=
  match d !! k with
  | Some v => OK v
  | None => Raise KeyError
  end.

(** [a == b] on two [bytes] objects. *)
Definition bytes_eqb (a b : Bytes) : bool := bool_decide (a = b).

(** [s.startswith(prefix)] on [bytes]. *)
Fixpoint startswith (s prefix : Bytes) : bool :=
  match prefix, s with
  | [], _ => true
  | p :: prefix', x :: s' => (x =? p) && startswith s' prefix'
  | _ :: _, [] => false
  end.

(** The two kinds of object met by the nibble comparisons of the walker:
    indexing a [bytes] gives an [int], [bytes([i])] gives a [bytes]. *)
Inductive PyObj : Type :=
| PyInt (z : Z)
| PyBytes (b : Bytes).

(** [a == b] on these objects: an [int] and a [bytes] never compare equal. *)
Definition py_eq (a b : PyObj) : bool :=
  match a, b with
  | PyInt x, PyInt y => x =? y
  | PyBytes x, PyBytes y => bytes_eqb x y
  | PyInt _, PyBytes _ => false
  | PyBytes _, PyInt _ => false
  end.

(** ** Nodes and node references *)

(** [ethereum_rlp.rlp.Extended], restricted to what a trie holds: a byte
    string or a list of such items. *)
Inductive Extended : Type :=
| EBytes (b : Bytes)
| EList (items : list Extended).

(** [ethereum.cancun.trie.LeafNode] *)
Record LeafNode : Type := mkLeafNode {
  rest_of_key : Bytes;
  value : Bytes;
}.

(** [ethereum.cancun.trie.InternalNode = LeafNode | ExtensionNode | BranchNode].
    An extension holds [key_segment] and [subnode], a branch holds
    [subnodes] and [value]. *)
Inductive InternalNode : Type :=
| Leaf (leaf : LeafNode)
| ExtensionNode (key_segment : Bytes) (subnode : Extended)
| BranchNode (subnodes : list Extended) (branch_value : Bytes).

(** [Optional[Union[InternalNode, Extended]]]: what [_compute_diff] and
    [resolve] take as [left], [right] and [node]. *)
Inductive NodeRef : Type :=
| RNone
| RNode (n : InternalNode)
| RExt (e : Extended).

(** Structural [==] of Python on these values. *)
Fixpoint Extended_eqb (a b : Extended) : bool :=
  match a, b with
  | EBytes x, EBytes y => bytes_eqb x y
  | EList xs, EList ys =>
      (fix go (xs ys : list Extended) : bool :=
         match xs, ys with
         | [], [] => true
         | x :: xs', y :: ys' => Extended_eqb x y && go xs' ys'
         | _, _ => false
         end) xs ys
  | _, _ => false
  end.

Definition Extended_list_eqb : list Extended -> list Extended -> bool :=
  fix go (xs ys : list Extended) : bool :=
    match xs, ys with
    | [], [] => true
    | x :: xs', y :: ys' => Extended_eqb x y && go xs' ys'
    | _, _ => false
    end.

Definition InternalNode_eqb (a b : InternalNode) : bool :=
  match a, b with
  | Leaf l, Leaf l' =>
      bytes_eqb (rest_of_key l) (rest_of_key l') && bytes_eqb (value l) (value l')
  | ExtensionNode k s, ExtensionNode k' s' => bytes_eqb k k' && Extended_eqb s s'
  | BranchNode ss v, BranchNode ss' v' => Extended_list_eqb ss ss' && bytes_eqb v v'
  | _, _ => false
  end.

Definition NodeRef_eqb (a b : NodeRef) : bool :=
  match a, b with
  | RNone, RNone => true
  | RNode n, RNode n' => InternalNode_eqb n n'
  | RExt e, RExt e' => Extended_eqb e e'
  | _, _ => false
  end.

(** ** Helpers imported from [mpt.utils], the RLP library and the builtins

    Their code is not part of [trie_diff.py]; the module is verified for
    every implementation of them. *)
Record Account : Type := mkAccount {
  nonce : Z;
  balance : Z;
  code_hash : Bytes;
  storage_root : Bytes;
  code : option Bytes;
}.

Class Helpers : Type := {
  check_branch_node : InternalNode -> result unit;
  deserialize_to_internal_node : list Extended -> result InternalNode;
  nibble_list_to_bytes : Bytes -> result Bytes;
  Account_from_rlp : Bytes -> result Account;
  rlp_decode : Bytes -> result Extended;
  (* [int(s, 16)] *)
  int_base16 : string -> result Z;
  (* [Address.fromhex], [Hash32.fromhex], [Bytes32.fromhex], by byte length *)
  FixedBytes_fromhex : nat -> string -> result Bytes;
}.

(** ** [resolve] *)

Definition resolve `{Helpers} (node : NodeRef) (nodes : gmap Bytes InternalNode)
    : result (option InternalNode) :=
  match node with
  | RNone => OK None
  | RNode n => OK (Some n)
  | RExt (EBytes b) =>
      if bytes_eqb b [] then OK None
      else if (Z.of_nat (length b) =? 32) then OK (nodes !! b)
      else Raise ValueError
  | RExt (EList items) =>
      n <- deserialize_to_internal_node items ;; OK (Some n)
  end.

(** ** The accumulator *)

Record StateDiff : Type := mkStateDiff {
  _main_trie : gmap Bytes (option Account * option Account);
  _storage_tries : gmap Bytes (gmap Bytes (option Z * option Z));
  _nodes : gmap Bytes InternalNode;
  _address_preimages : gmap Bytes Bytes;
  _storage_key_preimages : gmap Bytes Bytes;
}.

(** [process_leaf_diff(path=..., left=..., right=...)] *)
Definition LeafHandler : Type :=
  Bytes -> option LeafNode -> option LeafNode -> StateDiff -> result StateDiff.

(** [r_node.key_segment = ks] where [r_node] was resolved from [right]: the
    node object is the one held by the store when [right] is a hash, and
    an object private to the call otherwise. *)
Definition setattr_key_segment (right : NodeRef) (ks : Bytes)
    (self : StateDiff) : StateDiff :=
  match right with
  | RExt (EBytes h) =>
      match _nodes self !! h with
      | Some (ExtensionNode _ sub) =>
          mkStateDiff (_main_trie self) (_storage_tries self)
            (<[h := ExtensionNode ks sub]> (_nodes self))
            (_address_preimages self) (_storage_key_preimages self)
      | _ => self
      end
  | _ => self
  end.

(** ** [StateDiff._compute_diff]

    [depth] bounds the nesting of the recursive calls; running out of it
    is Python's [RecursionError].  The final [case _] of the source cannot
    be reached: [resolve] yields [None] or one of the three node classes. *)
Fixpoint _compute_diff {H : Helpers} (depth : nat)
    (process_leaf_diff : LeafHandler) (left right : NodeRef) (path : Bytes)
    (self : StateDiff) {struct depth} : result StateDiff :=
  match depth with
  | O => Raise RecursionError
  | S depth' =>
    let recurse := _compute_diff depth' process_leaf_diff in
    if NodeRef_eqb left right then OK self
    else
      l_node <- resolve left (_nodes self) ;;
      r_node <- resolve right (_nodes self) ;;
      match l_node, r_node with
      | None, None => OK self

      | None, Some (Leaf r) =>
          full_path <- nibble_list_to_bytes (path ++ rest_of_key r) ;;
          process_leaf_diff full_path None (Some r) self

      | None, Some (ExtensionNode r_key_segment r_subnode) =>
          recurse RNone (RExt r_subnode) (path ++ r_key_segment) self

      | None, Some (BranchNode r_subnodes r_value) =>
          check_branch_node (BranchNode r_subnodes r_value) ;;;
          for_each range16 (fun i self =>
            r_i <- index r_subnodes i ;;
            recurse RNone (RExt r_i) (path ++ [i]) self) self

      | Some (Leaf l), None =>
          full_path <- nibble_list_to_bytes (path ++ rest_of_key l) ;;
          process_leaf_diff full_path (Some l) None self

      | Some (Leaf l), Some (Leaf r) =>
          if bytes_eqb (rest_of_key l) (rest_of_key r) then
            if negb (bytes_eqb (value l) (value r)) then
              full_path <- nibble_list_to_bytes (path ++ rest_of_key l) ;;
              process_leaf_diff full_path (Some l) (Some r) self
            else OK self
          else
            path_left <- nibble_list_to_bytes (path ++ rest_of_key l) ;;
            path_right <- nibble_list_to_bytes (path ++ rest_of_key r) ;;
            self <- process_leaf_diff path_left (Some l) None self ;;
            process_leaf_diff path_right None (Some r) self

      | Some (Leaf l), Some (ExtensionNode r_key_segment r_subnode) =>
          if startswith (rest_of_key l) r_key_segment then
            let l_node :=
              mkLeafNode (drop (length r_key_segment) (rest_of_key l)) (value l) in
            recurse (RNode (Leaf l_node)) (RExt r_subnode)
              (path ++ r_key_segment) self
          else
            path_left <- nibble_list_to_bytes (path ++ rest_of_key l) ;;
            self <- process_leaf_diff path_left (Some l) None self ;;
            recurse RNone (RExt r_subnode) (path ++ r_key_segment) self

      | Some (Leaf l), Some (BranchNode r_subnodes r_value) =>
          check_branch_node (BranchNode r_subnodes r_value) ;;;
          for_each range16 (fun i self =>
            k0 <- index (rest_of_key l) 0 ;;
            if negb (i =? k0) then
              r_i <- index r_subnodes i ;;
              recurse RNone (RExt r_i) (path ++ [i]) self
            else
              let shortened_l_node :=
                mkLeafNode (drop 1 (rest_of_key l)) (value l) in
              r_i <- index r_subnodes i ;;
              recurse (RNode (Leaf shortened_l_node)) (RExt r_i)
                (path ++ [i]) self) self

      | Some (ExtensionNode l_key_segment l_subnode), None =>
          recurse (RExt l_subnode) RNone (path ++ l_key_segment) self

      | Some (ExtensionNode l_key_segment l_subnode), Some (Leaf r) =>
          if startswith (rest_of_key r) l_key_segment then
            let r_node :=
              mkLeafNode (drop (length l_key_segment) (rest_of_key r)) (value r) in
            recurse (RExt l_subnode) (RNode (Leaf r_node))
              (path ++ l_key_segment) self
          else
            path_right <- nibble_list_to_bytes (path ++ rest_of_key r) ;;
            self <- process_leaf_diff path_right None (Some r) self ;;
            recurse (RExt l_subnode) RNone (path ++ l_key_segment) self

      | Some (ExtensionNode l_key_segment l_subnode),
        Some (ExtensionNode r_key_segment r_subnode) =>
          if bytes_eqb l_key_segment r_key_segment then
            recurse (RExt l_subnode) (RExt r_subnode)
              (path ++ l_key_segment) self
          else if startswith l_key_segment r_key_segment then
            let l_node_shortened :=
              ExtensionNode (drop (length r_key_segment) l_key_segment) l_subnode in
            recurse (RNode l_node_shortened) (RExt r_subnode)
              (path ++ r_key_segment) self
          else if startswith r_key_segment l_key_segment then
            let r_node_shortened :=
              ExtensionNode (drop (length l_key_segment) r_key_segment) r_subnode in
            recurse (RExt l_subnode) (RNode r_node_shortened)
              (path ++ l_key_segment) self
          else
            self <- recurse (RExt l_subnode) RNone (path ++ l_key_segment) self ;;
            recurse RNone (RExt r_subnode) (path ++ r_key_segment) self

      | Some (ExtensionNode l_key_segment l_subnode),
        Some (BranchNode r_subnodes r_value) =>
          check_branch_node (BranchNode r_subnodes r_value) ;;;
          for_each range16 (fun i self =>
            let nibble := [i] in
            k0 <- index l_key_segment 0 ;;
            if py_eq (PyInt k0) (PyBytes nibble) then
              let l_node_to_compare :=
                if (Z.of_nat (length l_key_segment) =? 1) then RExt l_subnode
                else RNode (ExtensionNode (drop 1 l_key_segment) l_subnode) in
              r_i <- index r_subnodes i ;;
              recurse l_node_to_compare (RExt r_i) (path ++ nibble) self
            else
              r_i <- index r_subnodes i ;;
              recurse RNone (RExt r_i) (path ++ nibble) self) self

      | Some (BranchNode l_subnodes l_value), None =>
          check_branch_node (BranchNode l_subnodes l_value) ;;;
          for_each range16 (fun i self =>
            l_i <- index l_subnodes i ;;
            recurse (RExt l_i) RNone (path ++ [i]) self) self

      | Some (BranchNode l_subnodes l_value), Some (Leaf r) =>
          check_branch_node (Leaf r) ;;;
          for_each range16 (fun i self =>
            k0 <- index (rest_of_key r) 0 ;;
            if negb (i =? k0) then
              l_i <- index l_subnodes i ;;
              recurse (RExt l_i) RNone (path ++ [i]) self
            else
              let shortened_r_node :=
                mkLeafNode (drop 1 (rest_of_key r)) (value r) in
              l_i <- index l_subnodes i ;;
              recurse (RExt l_i) (RNode (Leaf shortened_r_node))
                (path ++ [i]) self) self

      | Some (BranchNode l_subnodes l_value),
        Some (ExtensionNode r_key_segment r_subnode) =>
          check_branch_node (ExtensionNode r_key_segment r_subnode) ;;;
          st <- for_each range16 (fun i (st : StateDiff * Bytes) =>
            let self := st.1 in
            let r_key_segment := st.2 in
            let nibble := [i] in
            k0 <- index r_key_segment 0 ;;
            if py_eq (PyInt k0) (PyBytes nibble) then
              let r_key_segment := drop 1 r_key_segment in
              let self := setattr_key_segment right r_key_segment self in
              l_i <- index l_subnodes i ;;
              self <- recurse (RExt l_i) (RExt r_subnode) (path ++ nibble) self ;;
              OK (self, r_key_segment)
            else
              l_i <- index l_subnodes i ;;
              self <- recurse (RExt l_i) RNone (path ++ nibble) self ;;
              OK (self, r_key_segment)) (self, r_key_segment) ;;
          OK st.1

      | Some (BranchNode l_subnodes l_value), Some (BranchNode r_subnodes r_value) =>
          check_branch_node (BranchNode l_subnodes l_value) ;;;
          check_branch_node (BranchNode r_subnodes r_value) ;;;
          for_each range16 (fun i self =>
            l_subnode <- index l_subnodes i ;;
            r_subnode <- index r_subnodes i ;;
            recurse (RExt l_subnode) (RExt r_subnode) (path ++ [i]) self) self
      end
  end.

(** ** Leaf handlers *)

(** [int.from_bytes(b, "big")].  The argument is a bytes-like object or an
    iterable of integers: the empty list gives 0, a list that holds RLP
    items (byte strings, lists) has no integer to offer. *)
Definition int_from_bytes (e : Extended) : result Z :=
  match e with
  | EBytes b => OK (fold_left (fun acc byte => 256 * acc + byte) b 0)
  | EList [] => OK 0
  | EList (_ :: _) => Raise TypeError
  end.

(** [U256(n)]: the constructor refuses a value outside [0, 2^256). *)
Definition U256 (n : Z) : result Z :=
  if (0 <=? n) && (n <? 2 ^ 256) then OK n else Raise OverflowError.

(** [if address not in self._storage_tries: self._storage_tries[address] = {}]
    followed by [self._storage_tries[address][key] = entry]. *)
Definition storage_setitem (address key : Bytes) (entry : option Z * option Z)
    (tries : gmap Bytes (gmap Bytes (option Z * option Z)))
    : gmap Bytes (gmap Bytes (option Z * option Z)) :=
  let tries :=
    match tries !! address with
    | None => <[address := ∅]> tries
    | Some _ => tries
    end in
  match tries !! address with
  | Some inner => <[address := <[key := entry]> inner]> tries
  | None => tries
  end.

Definition set_storage_tries (self : StateDiff)
    (tries : gmap Bytes (gmap Bytes (option Z * option Z))) : StateDiff :=
  mkStateDiff (_main_trie self) tries (_nodes self)
    (_address_preimages self) (_storage_key_preimages self).

Definition set_main_trie (self : StateDiff)
    (accounts : gmap Bytes (option Account * option Account)) : StateDiff :=
  mkStateDiff accounts (_storage_tries self) (_nodes self)
    (_address_preimages self) (_storage_key_preimages self).

(** [U256(int.from_bytes(rlp.decode(leaf.value), "big")) if leaf else None] *)
Definition decode_slot `{Helpers} (leaf : option LeafNode) : result (option Z) :=
  match leaf with
  | Some l =>
      decoded <- rlp_decode (value l) ;;
      n <- int_from_bytes decoded ;;
      u <- U256 n ;;
      OK (Some u)
  | None => OK None
  end.

Definition _process_storage_diff `{Helpers} (address : Bytes) : LeafHandler :=
  fun path left right self =>
    key <- getitem (_storage_key_preimages self) path ;;
    left_decoded <- decode_slot left ;;
    right_decoded <- decode_slot right ;;
    match left, right with
    | None, _ =>
        OK (set_storage_tries self
              (storage_setitem address key (None, right_decoded) (_storage_tries self)))
    | Some _, None =>
        OK (set_storage_tries self
              (storage_setitem address key (left_decoded, None) (_storage_tries self)))
    | Some _, Some _ =>
        OK (set_storage_tries self
              (storage_setitem address key (left_decoded, right_decoded)
                 (_storage_tries self)))
    end.

(** [None if leaf is None else Account.from_rlp(leaf.value)] *)
Definition decode_account `{Helpers} (leaf : option LeafNode)
    : result (option Account) :=
  match leaf with
  | None => OK None
  | Some l => a <- Account_from_rlp (value l) ;; OK (Some a)
  end.

(** [None if account is None else account.storage_root] *)
Definition storage_root_ref (account : option Account) : NodeRef :=
  match account with
  | None => RNone
  | Some a => RExt (EBytes (storage_root a))
  end.

Definition _process_account_diff `{Helpers} (depth : nat) : LeafHandler :=
  fun path left right self =>
    address <- getitem (_address_preimages self) path ;;
    left_account <- decode_account left ;;
    right_account <- decode_account right ;;
    let self :=
      set_main_trie self
        (<[address := (left_account, right_account)]> (_main_trie self)) in
    let left_storage_root := storage_root_ref left_account in
    let right_storage_root := storage_root_ref right_account in
    _compute_diff depth (_process_storage_diff address)
      left_storage_root right_storage_root [] self.

(** ** [StateDiff.from_tries] *)

(** [mpt.ethereum_tries.EthereumTrieTransitionDB], the fields read here. *)
Record EthereumTrieTransitionDB : Type := mkTransitionDB {
  nodes : gmap Bytes InternalNode;
  address_preimages : gmap Bytes Bytes;
  storage_key_preimages : gmap Bytes Bytes;
  state_root : Bytes;
  post_state_root : Bytes;
}.

Definition from_tries `{Helpers} (depth : nat) (tries : EthereumTrieTransitionDB)
    : result StateDiff :=
  let diff :=
    mkStateDiff ∅ ∅ (nodes tries) (address_preimages tries)
      (storage_key_preimages tries) in
  let l_root := RExt (EBytes (state_root tries)) in
  let r_root := RExt (EBytes (post_state_root tries)) in
  _compute_diff depth (_process_account_diff depth) l_root r_root [] diff.

(** ** [StateDiff.from_data] *)

(** The JSON objects read by [from_data]: a key that may be missing is an
    [option]. *)
Record AccountJson : Type := mkAccountJson {
  j_balance : string;
  j_nonce : string;
  j_codeHash : string;
  j_storageHash : string;
}.

Record StorageDiffJson : Type := mkStorageDiffJson {
  j_storageKey : string;
  j_preValue : string;
  j_postValue : string;
}.

Record DiffJson : Type := mkDiffJson {
  j_address : string;
  j_preAccount : option AccountJson;
  j_postAccount : option AccountJson;
  j_storage : option (list StorageDiffJson);
}.

(** [s[2:]] *)
Definition strip0x (s : string) : string :=
  match s with
  | String _ (String _ rest) => rest
  | _ => EmptyString
  end.

(** [Uint(n)]: the constructor refuses a negative value. *)
Definition Uint (n : Z) : result Z :=
  if 0 <=? n then OK n else Raise OverflowError.

Definition parse_account `{Helpers} (a : AccountJson) : result Account :=
  balance_int <- int_base16 (strip0x (j_balance a)) ;;
  balance <- U256 balance_int ;;
  nonce_int <- int_base16 (strip0x (j_nonce a)) ;;
  nonce <- Uint nonce_int ;;
  code_hash <- FixedBytes_fromhex 32 (strip0x (j_codeHash a)) ;;
  storage_hash <- FixedBytes_fromhex 32 (strip0x (j_storageHash a)) ;;
  OK (mkAccount nonce balance code_hash storage_hash None).

Definition parse_optional_account `{Helpers} (a : option AccountJson)
    : result (option Account) :=
  match a with
  | Some a => acc <- parse_account a ;; OK (Some acc)
  | None => OK None
  end.

(** One iteration of [for storage_diff in diff["storage"]]. *)
Definition from_data_storage `{Helpers} (address : Bytes)
    (storage_diff : StorageDiffJson) (state_diff : StateDiff) : result StateDiff :=
  key <- FixedBytes_fromhex 32 (strip0x (j_storageKey storage_diff)) ;;
  pre_int <- int_base16 (strip0x (j_preValue storage_diff)) ;;
  post_int <- int_base16 (strip0x (j_postValue storage_diff)) ;;
  pre <- (if pre_int =? 0 then OK None else u <- U256 pre_int ;; OK (Some u)) ;;
  post <- (if post_int =? 0 then OK None else u <- U256 post_int ;; OK (Some u)) ;;
  OK (set_storage_tries state_diff
        (storage_setitem address key (pre, post) (_storage_tries state_diff))).

(** One iteration of [for diff in data["extra"]["stateDiffs"]]. *)
Definition from_data_diff `{Helpers} (diff : DiffJson) (state_diff : StateDiff)
    : result StateDiff :=
  address <- FixedBytes_fromhex 20 (strip0x (j_address diff)) ;;
  pre_account <- parse_optional_account (j_preAccount diff) ;;
  post_account <- parse_optional_account (j_postAccount diff) ;;
  state_diff <-
    match j_storage diff with
    | Some storage => for_each storage (from_data_storage address) state_diff
    | None => OK state_diff
    end ;;
  OK (set_main_trie state_diff
        (<[address := (pre_account, post_account)]> (_main_trie state_diff))).

Definition from_data `{Helpers} (stateDiffs : list DiffJson) : result StateDiff :=
  for_each stateDiffs from_data_diff (mkStateDiff ∅ ∅ ∅ ∅ ∅).

(** ** Vocabulary of the properties *)

(** Every address with storage diffs has an account diff. *)
Definition storage_nested (self : StateDiff) : Prop :=
  dom (_storage_tries self) ⊆ dom (_main_trie self).

(** [key_width store d ref]: in the trie under [ref], entered after [d]
    nibbles of key, every leaf closes a key of exactly 64 nibbles. *)
Inductive key_width `{Helpers} (store : gmap Bytes InternalNode)
    : nat -> NodeRef -> Prop :=
| kw_absent d ref :
    resolve ref store = OK None -> key_width store d ref
| kw_leaf d ref l :
    resolve ref store = OK (Some (Leaf l)) ->
    (d + length (rest_of_key l) = 64)%nat ->
    key_width store d ref
| kw_extension d ref key_segment subnode :
    resolve ref store = OK (Some (ExtensionNode key_segment subnode)) ->
    key_width store (d + length key_segment) (RExt subnode) ->
    key_width store d ref
| kw_branch d ref subnodes v :
    resolve ref store = OK (Some (BranchNode subnodes v)) ->
    Forall (fun s => key_width store (S d) (RExt s)) subnodes ->
    key_width store d ref.

(** A checker for [key_width], exploring the trie to a bounded depth. *)
Fixpoint key_width_b `{Helpers} (fuel : nat) (store : gmap Bytes InternalNode)
    (d : nat) (ref : NodeRef) : bool :=
  match fuel with
  | O => false
  | S fuel' =>
      match resolve ref store with
      | OK None => true
      | OK (Some (Leaf l)) => (d + length (rest_of_key l) =? 64)%nat
      | OK (Some (ExtensionNode key_segment subnode)) =>
          key_width_b fuel' store (d + length key_segment) (RExt subnode)
      | OK (Some (BranchNode subnodes _)) =>
          forallb (fun s => key_width_b fuel' store (S d) (RExt s)) subnodes
      | Raise _ => false
      end
  end.

(** A parsed storage value as [from_data] is to record it: zero is absence. *)
Definition zero_is_absent (n : Z) : option Z :=
  if n =? 0 then None else Some n.

(** [tries[address][key]] when both keys are there. *)
Definition storage_slot (tries : gmap Bytes (gmap Bytes (option Z * option Z)))
    (address key : Bytes) : option (option Z * option Z) :=
  match tries !! address with
  | Some inner => inner !! key
  | None => None
  end.

(** No storage diff object after the current one writes [key] under
    [address]: none in the rest of the same diff object, none in a later
    diff object of the same address. *)
Definition not_rewritten `{Helpers} (address key : Bytes)
    (later_storage : list StorageDiffJson) (later_diffs : list DiffJson) : Prop :=
  (forall sd, sd ∈ later_storage ->
     FixedBytes_fromhex 32 (strip0x (j_storageKey sd)) <> OK key) /\
  (forall diff storage sd,
     diff ∈ later_diffs ->
     FixedBytes_fromhex 20 (strip0x (j_address diff)) = OK address ->
     j_storage diff = Some storage ->
     sd ∈ storage ->
     FixedBytes_fromhex 32 (strip0x (j_storageKey sd)) <> OK key).

(** The handler [h] behind [assert len(path) == 32]. *)
Definition asserting_32_bytes (h : LeafHandler) : LeafHandler :=
  fun path l r self =>
    if (length path =? 32)%nat then h path l r self else Raise ValueError.

(** The value stored under a key of nibbles in the trie under [ref], read
    off the nodes the way the walker descends them. *)
Fixpoint trie_get `{Helpers} (fuel : nat) (store : gmap Bytes InternalNode)
    (ref : NodeRef) (key : Bytes) : option Bytes :=
  match fuel with
  | O => None
  | S fuel' =>
      match resolve ref store with
      | OK (Some (Leaf l)) =>
          if bytes_eqb (rest_of_key l) key then Some (value l) else None
      | OK (Some (ExtensionNode key_segment subnode)) =>
          if startswith key key_segment
          then trie_get fuel' store (RExt subnode) (drop (length key_segment) key)
          else None
      | OK (Some (BranchNode subnodes _)) =>
          match key with
          | nibble :: key' =>
              match nth_error subnodes (Z.to_nat nibble) with
              | Some s => trie_get fuel' store (RExt s) key'
              | None => None
              end
          | [] => None
          end
      | _ => None
      end
  end.

(** ** A reference implementation of the helpers

    Used to run the module on concrete tries.  The theorems below that
    quantify over [Helpers] do not depend on it. *)
Module Reference.

(** Modelled from the spec: [check_branch_node] of [mpt.utils], missing
    here, "asserts" that a Branch's [value] is empty, "a non-empty branch
    value is a structural error".  The helper reads the attribute [value]
    of the object it is given: a leaf has one, an extension has none. *)
Definition check_branch_node (node : InternalNode) : result unit :=
  match node with
  | BranchNode _ v => if bytes_eqb v [] then OK tt else Raise BadBranch
  | Leaf l => if bytes_eqb (value l) [] then OK tt else Raise BadBranch
  | ExtensionNode _ _ => Raise AttributeError
  end.

(** Modelled from the spec: [nibble_list_to_bytes] of [mpt.utils], missing
    here, packs the path "from nibbles to bytes (2 nibbles per output
    byte)".  The spec says nothing of an odd number of nibbles; reading
    the second nibble of the last pair then fails. *)
Fixpoint nibble_list_to_bytes (nibble_list : Bytes) : result Bytes :=
  match nibble_list with
  | [] => OK []
  | hi :: lo :: rest =>
      packed <- nibble_list_to_bytes rest ;; OK (16 * hi + lo :: packed)
  | [_] => Raise IndexError
  end.

(** The inverse direction, one nibble per byte. *)
Definition bytes_to_nibble_list (b : Bytes) : Bytes :=
  flat_map (fun byte => [byte / 16; byte mod 16]) b.

(** Modelled from the spec: [deserialize_to_internal_node] of [mpt.utils],
    missing here, decodes an inline RLP list "into the appropriate
    variant": seventeen items are a branch, two items are a leaf or an
    extension according to the flag nibble of the compact-encoded key. *)
Definition deserialize_to_internal_node (items : list Extended)
    : result InternalNode :=
  match items with
  | [EBytes prefix; payload] =>
      let nibbles := bytes_to_nibble_list prefix in
      match nibbles with
      | flag :: _ =>
          let key := if flag mod 2 =? 1 then drop 1 nibbles else drop 2 nibbles in
          if 2 <=? flag then
            match payload with
            | EBytes v => OK (Leaf (mkLeafNode key v))
            | EList _ => Raise DecodingError
            end
          else OK (ExtensionNode key payload)
      | [] => Raise DecodingError
      end
  | _ =>
      if (length items =? 17)%nat then
        match last items with
        | Some (EBytes v) => OK (BranchNode (take 16 items) v)
        | _ => Raise DecodingError
        end
      else Raise DecodingError
  end.

(** Big-endian length field of a long RLP item. *)
Definition be_int (b : Bytes) : Z :=
  fold_left (fun acc byte => 256 * acc + byte) b 0.

Definition take_exact (n : Z) (b : Bytes) : result (Bytes * Bytes) :=
  if (n <=? Z.of_nat (length b)) then
    OK (take (Z.to_nat n) b, drop (Z.to_nat n) b)
  else Raise DecodingError.

(** RLP decoding of a concatenation of items (the payload of a list). *)
Fixpoint rlp_items (fuel : nat) (b : Bytes) : result (list Extended) :=
  match fuel with
  | O => Raise DecodingError
  | S fuel' =>
      match b with
      | [] => OK []
      | b0 :: rest =>
          if b0 <? 128 then
            others <- rlp_items fuel' rest ;; OK (EBytes [b0] :: others)
          else if b0 <=? 183 then
            s <- take_exact (b0 - 128) rest ;;
            others <- rlp_items fuel' s.2 ;; OK (EBytes s.1 :: others)
          else if b0 <=? 191 then
            n <- take_exact (b0 - 183) rest ;;
            s <- take_exact (be_int n.1) n.2 ;;
            others <- rlp_items fuel' s.2 ;; OK (EBytes s.1 :: others)
          else if b0 <=? 247 then
            s <- take_exact (b0 - 192) rest ;;
            inner <- rlp_items fuel' s.1 ;;
            others <- rlp_items fuel' s.2 ;; OK (EList inner :: others)
          else
            n <- take_exact (b0 - 247) rest ;;
            s <- take_exact (be_int n.1) n.2 ;;
            inner <- rlp_items fuel' s.1 ;;
            others <- rlp_items fuel' s.2 ;; OK (EList inner :: others)
      end
  end.

(** [rlp.decode] on well-formed encodings: exactly one item. *)
Definition rlp_decode (encoded : Bytes) : result Extended :=
  items <- rlp_items (S (length encoded)) encoded ;;
  match items with
  | [item] => OK item
  | _ => Raise DecodingError
  end.

(** [Account.from_rlp]: the list [nonce, balance, storage_root, code_hash]. *)
Definition Account_from_rlp (encoded : Bytes) : result Account :=
  decoded <- rlp_decode encoded ;;
  match decoded with
  | EList [EBytes n; EBytes b; EBytes sr; EBytes ch] =>
      nonce <- Uint (be_int n) ;;
      balance <- U256 (be_int b) ;;
      if (length sr =? 32)%nat && (length ch =? 32)%nat
      then OK (mkAccount nonce balance ch sr None)
      else Raise ValueError
  | _ => Raise DecodingError
  end.

Definition hex_digit (c : ascii) : option Z :=
  let n := Z.of_nat (nat_of_ascii c) in
  if (48 <=? n) && (n <=? 57) then Some (n - 48)
  else if (97 <=? n) && (n <=? 102) then Some (n - 87)
  else if (65 <=? n) && (n <=? 70) then Some (n - 55)
  else None.

Fixpoint hex_digits (s : string) : result (list Z) :=
  match s with
  | EmptyString => OK []
  | String c rest =>
      match hex_digit c with
      | Some d => ds <- hex_digits rest ;; OK (d :: ds)
      | None => Raise ValueError
      end
  end.

(** [int(s, 16)] on a plain string of hexadecimal digits. *)
Definition int_base16 (s : string) : result Z :=
  ds <- hex_digits s ;;
  match ds with
  | [] => Raise ValueError
  | _ => OK (fold_left (fun acc d => 16 * acc + d) ds 0)
  end.

(** [cls.fromhex(s)] for a fixed-size bytes class of [LENGTH] bytes. *)
Definition FixedBytes_fromhex (LENGTH : nat) (s : string) : result Bytes :=
  ds <- hex_digits s ;;
  match nibble_list_to_bytes ds with
  | OK b => if (length b =? LENGTH)%nat then OK b else Raise ValueError
  | Raise _ => Raise ValueError
  end.

Definition helpers : Helpers :=
  Build_Helpers check_branch_node deserialize_to_internal_node
    nibble_list_to_bytes Account_from_rlp rlp_decode int_base16
    FixedBytes_fromhex.

End Reference.

(** ** Concrete tries

    A small account trie before and after a block, over 64-nibble keys.

    Before: the accounts [A] and [B] sit under the keys [1 2 3 0...] and
    [1 2 4 0...]; the root is an extension over [1 2] leading to a branch.
    After: the account [C] was created under the key [5 0...]; the root is
    a branch whose slot 1 holds an extension over [2] leading to the same
    branch as before, and whose slot 5 holds the new leaf.  [A] and [B]
    are untouched.  [A] owns one storage slot, [C] another. *)
Module Scenario.

Definition hash (n : Z) : Bytes := replicate 32 n.
Definition zeros (n : nat) : Bytes := replicate n 0.
Definition empty_subnodes : list Extended := replicate 16 (EBytes []).

(** RLP of [nonce, balance, storage_root, code_hash] for a nonce and a
    balance in 1..127. *)
Definition account_rlp (nonce balance : Z) (storage_root code_hash : Bytes)
    : Bytes :=
  [248; 68; nonce; balance; 160] ++ storage_root ++ [160] ++ code_hash.

Definition account_A : Account := mkAccount 1 10 (hash 30) (hash 20) None.
Definition account_B : Account := mkAccount 2 20 (hash 30) (hash 0) None.
Definition account_C : Account := mkAccount 3 30 (hash 30) (hash 21) None.

Definition leaf_A : LeafNode := mkLeafNode (zeros 61) (account_rlp 1 10 (hash 20) (hash 30)).
Definition leaf_B : LeafNode := mkLeafNode (zeros 61) (account_rlp 2 20 (hash 0) (hash 30)).
Definition leaf_C : LeafNode := mkLeafNode (zeros 63) (account_rlp 3 30 (hash 21) (hash 30)).

Definition branch_AB : InternalNode :=
  BranchNode (<[3%nat := EBytes (hash 3)]> (<[4%nat := EBytes (hash 4)]> empty_subnodes)) [].
Definition pre_root_node : InternalNode := ExtensionNode [1; 2] (EBytes (hash 2)).
Definition post_slot_1 : InternalNode := ExtensionNode [2] (EBytes (hash 2)).
Definition post_root_node : InternalNode :=
  BranchNode (<[1%nat := EBytes (hash 6)]> (<[5%nat := EBytes (hash 5)]> empty_subnodes)) [].

(** Storage tries of [A] and [C]: one slot each, a single leaf. *)
Definition slot_of_A : LeafNode := mkLeafNode (zeros 64) [5].
Definition slot_of_C : LeafNode := mkLeafNode (zeros 64) [9].

Definition store : gmap Bytes InternalNode :=
  <[hash 1 := pre_root_node]>
  (<[hash 2 := branch_AB]>
  (<[hash 3 := Leaf leaf_A]>
  (<[hash 4 := Leaf leaf_B]>
  (<[hash 5 := Leaf leaf_C]>
  (<[hash 6 := post_slot_1]>
  (<[hash 7 := post_root_node]>
  (<[hash 20 := Leaf slot_of_A]>
  (<[hash 21 := Leaf slot_of_C]> ∅)))))))).

(** Packed keys ([keccak] of the address or of the slot number) and
    their preimages. *)
Definition key_A : Bytes := [18; 48] ++ zeros 30.
Definition key_B : Bytes := [18; 64] ++ zeros 30.
Definition key_C : Bytes := [80] ++ zeros 31.
Definition key_slot : Bytes := zeros 32.

Definition address_A : Bytes := replicate 20 10.
Definition address_B : Bytes := replicate 20 11.
Definition address_C : Bytes := replicate 20 12.
Definition slot_number : Bytes := zeros 31 ++ [1].

Definition addresses : gmap Bytes Bytes :=
  <[key_A := address_A]> (<[key_B := address_B]> (<[key_C := address_C]> ∅)).
Definition slots : gmap Bytes Bytes := <[key_slot := slot_number]> ∅.

(** The block that creates [C]. *)
Definition create_C : EthereumTrieTransitionDB :=
  mkTransitionDB store addresses slots (hash 1) (hash 7).

(** The block that deletes [C] again. *)
Definition delete_C : EthereumTrieTransitionDB :=
  mkTransitionDB store addresses slots (hash 7) (hash 1).

(** The block that deletes [B]: the branch and the extension above it
    collapse into the one leaf that is left, [A] under the root. *)
Definition lone_leaf_A : LeafNode :=
  mkLeafNode ([1; 2; 3] ++ zeros 61) (account_rlp 1 10 (hash 20) (hash 30)).
Definition delete_B : EthereumTrieTransitionDB :=
  mkTransitionDB (<[hash 9 := Leaf lone_leaf_A]> store) addresses slots
    (hash 1) (hash 9).

(** A first block: the state before it is the empty trie, whose root
    hash names no node; the state after it holds [C] alone, a leaf
    under the root. *)
Definition genesis_leaf : LeafNode :=
  mkLeafNode ([5] ++ zeros 63) (account_rlp 3 30 (hash 21) (hash 30)).
Definition genesis_store : gmap Bytes InternalNode :=
  <[hash 8 := Leaf genesis_leaf]> (<[hash 21 := Leaf slot_of_C]> ∅).
Definition genesis : EthereumTrieTransitionDB :=
  mkTransitionDB genesis_store addresses slots (hash 99) (hash 8).

(** A JSON state diff: one address, no account change recorded, two
    storage slots, the first cleared, the second set. *)
Definition json_address : string := "0x0a0a0a0a0a0a0a0a0a0a0a0a0a0a0a0a0a0a0a0a".
Definition json_key_1 : string :=
  "0x0000000000000000000000000000000000000000000000000000000000000001".
Definition json_key_2 : string :=
  "0x0000000000000000000000000000000000000000000000000000000000000002".
Definition json_cleared : StorageDiffJson := mkStorageDiffJson json_key_1 "0x5" "0x0".
Definition json_set : StorageDiffJson := mkStorageDiffJson json_key_2 "0x00" "0xff".
Definition json_diff : DiffJson :=
  mkDiffJson json_address None None (Some [json_cleared; json_set]).

Definition accumulator (tries : EthereumTrieTransitionDB) : StateDiff :=
  mkStateDiff ∅ ∅ (nodes tries) (address_preimages tries)
    (storage_key_preimages tries).

End Scenario.

(** ** Vocabulary of the further properties *)

(** The handler [h] behind [assert left is not None or right is not None]. *)
Definition asserting_a_side (h : LeafHandler) : LeafHandler :=
  fun path l r self =>
    match l, r with
    | None, None => Raise ValueError
    | _, _ => h path l r self
    end.

(** The handler [h] behind [assert left is None and right is not None]. *)
Definition asserting_creation (h : LeafHandler) : LeafHandler :=
  fun path l r self =>
    match l, r with
    | None, Some _ => h path l r self
    | _, _ => Raise ValueError
    end.

(** The handler [h] behind [assert left is not None and right is None]. *)
Definition asserting_deletion (h : LeafHandler) : LeafHandler :=
  fun path l r self =>
    match l, r with
    | Some _, None => h path l r self
    | _, _ => Raise ValueError
    end.

(** The leaves of the trie under [ref], entered at [path], each with its
    packed key, in the order of their keys: what is there to report when
    the other side has nothing.  The trie is explored to the depth
    [fuel]; a node reference or a branch that the walker would refuse is
    refused here. *)
Fixpoint leaves `{Helpers} (fuel : nat) (store : gmap Bytes InternalNode)
    (ref : NodeRef) (path : Bytes) : result (list (Bytes * LeafNode)) :=
  match fuel with
  | O => Raise RecursionError
  | S fuel' =>
      node <- resolve ref store ;;
      match node with
      | None => OK []
      | Some (Leaf l) =>
          full_path <- nibble_list_to_bytes (path ++ rest_of_key l) ;;
          OK [(full_path, l)]
      | Some (ExtensionNode key_segment subnode) =>
          leaves fuel' store (RExt subnode) (path ++ key_segment)
      | Some (BranchNode subnodes v) =>
          check_branch_node (BranchNode subnodes v) ;;;
          for_each range16 (fun i found =>
            s <- index subnodes i ;;
            below <- leaves fuel' store (RExt s) (path ++ [i]) ;;
            OK (found ++ below)) []
      end
  end.

(** [process_leaf_diff(path, None, leaf)] and
    [process_leaf_diff(path, leaf, None)] for a leaf found with its key. *)
Definition report_created (h : LeafHandler) (entry : Bytes * LeafNode)
    : StateDiff -> result StateDiff :=
  h entry.1 None (Some entry.2).

Definition report_deleted (h : LeafHandler) (entry : Bytes * LeafNode)
    : StateDiff -> result StateDiff :=
  h entry.1 (Some entry.2) None.

(** Every entry of the account diffs, and every entry of the storage
    diffs, satisfies a given property. *)
Definition account_entries (P : Bytes -> option Account * option Account -> Prop)
    (self : StateDiff) : Prop :=
  forall address entry, _main_trie self !! address = Some entry -> P address entry.

Definition storage_entries (Q : Bytes -> Bytes -> option Z * option Z -> Prop)
    (self : StateDiff) : Prop :=
  forall address inner key entry,
    _storage_tries self !! address = Some inner ->
    inner !! key = Some entry ->
    Q address key entry.

(** The accumulator of a walk over [tries]: it holds the preimages of
    [tries], and its entries satisfy [P] and [Q]. *)
Definition entries_invariant (tries : EthereumTrieTransitionDB)
    (P : Bytes -> option Account * option Account -> Prop)
    (Q : Bytes -> Bytes -> option Z * option Z -> Prop)
    (self : StateDiff) : Prop :=
  _address_preimages self = address_preimages tries /\
  _storage_key_preimages self = storage_key_preimages tries /\
  account_entries P self /\ storage_entries Q self.

(** An account as [from_data] builds it: no code, a non-negative nonce, a
    balance that fits 256 bits. *)
Definition parsed_account (a : Account) : Prop :=
  code a = None /\ 0 <= nonce a /\ 0 <= balance a < 2 ^ 256.

(** A storage value as [from_data] records it: not zero, within 256 bits. *)
Definition nonzero_U256 (v : Z) : Prop := 0 < v < 2 ^ 256.

Definition each_side {A : Type} (P : A -> Prop) (entry : option A * option A) : Prop :=
  (forall a, entry.1 = Some a -> P a) /\ (forall a, entry.2 = Some a -> P a).

(** A JSON state diff with accounts: the balance of one address goes from
    20 to 32 and one of its storage slots is set. *)
Module JsonScenario.

Definition hash_1e : string :=
  "0x1e1e1e1e1e1e1e1e1e1e1e1e1e1e1e1e1e1e1e1e1e1e1e1e1e1e1e1e1e1e1e1e".
Definition hash_14 : string :=
  "0x1414141414141414141414141414141414141414141414141414141414141414".

Definition before : AccountJson := mkAccountJson "0x14" "0x1" hash_1e hash_14.
Definition after : AccountJson := mkAccountJson "0x20" "0x2" hash_1e hash_1e.

Definition transfer : DiffJson :=
  mkDiffJson Scenario.json_address (Some before) (Some after)
    (Some [Scenario.json_set]).

Definition account_before : Account :=
  mkAccount 1 20 (Scenario.hash 30) (Scenario.hash 20) None.
Definition account_after : Account :=
  mkAccount 2 32 (Scenario.hash 30) (Scenario.hash 30) None.

(** What [from_data] makes of the untouched address followed by the
    transfer: the later object overwrites the account pair of the
    earlier one, the storage slots of both are kept. *)
Definition parsed : StateDiff :=
  mkStateDiff
    {[ Scenario.address_A := (Some account_before, Some account_after) ]}
    {[ Scenario.address_A :=
         {[ Scenario.zeros 31 ++ [1] := (Some 5, None);
            Scenario.zeros 31 ++ [2] := (None, Some 255) ]} ]}
    ∅ ∅ ∅.

End JsonScenario.


(** Two tries whose roots are extensions over [1 2] and over [1 3], each
    leading to a branch with two accounts: the accounts under [1 2 ...]
    moved to [1 3 ...]. *)
Module Diverging.

Definition moved_root : InternalNode := ExtensionNode [1; 3] (EBytes (Scenario.hash 41)).
Definition moved_branch : InternalNode :=
  BranchNode (<[3%nat := EBytes (Scenario.hash 3)]>
                (<[4%nat := EBytes (Scenario.hash 4)]> Scenario.empty_subnodes)) [].

Definition store : gmap Bytes InternalNode :=
  <[Scenario.hash 40 := moved_root]>
    (<[Scenario.hash 41 := moved_branch]> Scenario.store).

Definition key_D : Bytes := [19; 48] ++ Scenario.zeros 30.
Definition key_E : Bytes := [19; 64] ++ Scenario.zeros 30.
Definition address_D : Bytes := replicate 20 13.
Definition address_E : Bytes := replicate 20 14.

Definition addresses : gmap Bytes Bytes :=
  <[key_D := address_D]> (<[key_E := address_E]> Scenario.addresses).

Definition tries : EthereumTrieTransitionDB :=
  mkTransitionDB store addresses Scenario.slots (Scenario.hash 1) (Scenario.hash 40).

End Diverging.

(** * Properties *)

(** ** The [result] monad and loops *)

Lemma bind_OK {A B : Type} (m : result A) (k : A -> result B) (b : B) :
  bind m k = OK b -> exists a, m = OK a /\ k a = OK b.
Proof. destruct m as [a|e]; simpl; intros Hk; [eauto | discriminate]. Qed.

Lemma OK_inj {A : Type} (a b : A) : OK a = OK b -> a = b.
Proof. intros [= ->]. reflexivity. Qed.

Lemma for_each_app {I S : Type} (xs ys : list I) (body : I -> S -> result S)
    (s : S) :
  for_each (xs ++ ys) body s = (s' <- for_each xs body s ;; for_each ys body s').
Proof.
  revert s. induction xs as [|x xs IH]; intros s; simpl; [reflexivity|].
  destruct (body x s) as [s1|e]; simpl; [apply IH | reflexivity].
Qed.

(** A property kept by every iteration is kept by the loop. *)
Lemma for_each_preserves {I S : Type} (P : S -> Prop) (xs : list I)
    (body : I -> S -> result S) :
  (forall i s s', P s -> body i s = OK s' -> P s') ->
  forall s s', P s -> for_each xs body s = OK s' -> P s'.
Proof.
  intros Hbody. induction xs as [|x xs IH]; simpl; intros s s' Hs Hrun.
  - inversion Hrun; subst; exact Hs.
  - apply bind_OK in Hrun as (s1 & H1 & H2). eauto.
Qed.

(** Two loop bodies that agree on the states satisfying an invariant of
    the second give the same loop. *)
Lemma for_each_agree {I S : Type} (P : S -> Prop) (xs : list I)
    (body1 body2 : I -> S -> result S) :
  (forall i s, P s -> body1 i s = body2 i s) ->
  (forall i s s', P s -> body2 i s = OK s' -> P s') ->
  forall s, P s -> for_each xs body1 s = for_each xs body2 s.
Proof.
  intros Hagree Hkeep. induction xs as [|x xs IH]; simpl; intros s Hs.
  - reflexivity.
  - rewrite (Hagree x s Hs). destruct (body2 x s) as [s1|e] eqn:Hb; simpl.
    + apply IH. eauto.
    + reflexivity.
Qed.

(** ** Python equality on node references *)

Lemma bytes_eqb_eq (a b : Bytes) : bytes_eqb a b = true <-> a = b.
Proof. unfold bytes_eqb. apply bool_decide_eq_true. Qed.

Lemma bytes_eqb_refl (a : Bytes) : bytes_eqb a a = true.
Proof. apply bytes_eqb_eq. reflexivity. Qed.

Lemma Extended_nested_ind (P : Extended -> Prop) :
  (forall b, P (EBytes b)) ->
  (forall items, Forall P items -> P (EList items)) ->
  forall e, P e.
Proof.
  intros Hbytes Hlist. fix IH 1. intros [b|items].
  - apply Hbytes.
  - apply Hlist. induction items as [|x items IHitems]; constructor.
    + apply IH.
    + exact IHitems.
Qed.

Lemma Extended_eqb_eq (a b : Extended) : Extended_eqb a b = true <-> a = b.
Proof.
  revert b. induction a as [x|xs IHxs] using Extended_nested_ind; intros [y|ys]; simpl.
  - rewrite bytes_eqb_eq. split; [intros ->; reflexivity | intros [= ->]; reflexivity].
  - split; discriminate.
  - split; discriminate.
  - change ((fix go (xs ys : list Extended) : bool :=
               match xs, ys with
               | [], [] => true
               | x :: xs', y :: ys' => Extended_eqb x y && go xs' ys'
               | _, _ => false
               end) xs ys) with (Extended_list_eqb xs ys).
    assert (Hlist : Extended_list_eqb xs ys = true <-> xs = ys).
    { revert ys. induction IHxs as [|x xs Hx _ IH]; intros [|y ys]; simpl;
        try (split; (reflexivity || discriminate)).
      rewrite andb_true_iff, Hx, IH.
      split; [intros [-> ->]; reflexivity | intros [= -> ->]; split; reflexivity]. }
    rewrite Hlist. split; [intros ->; reflexivity | intros [= ->]; reflexivity].
Qed.

Lemma Extended_list_eqb_eq (xs ys : list Extended) :
  Extended_list_eqb xs ys = true <-> xs = ys.
Proof.
  revert ys. induction xs as [|x xs IH]; intros [|y ys]; simpl;
    try (split; (reflexivity || discriminate)).
  rewrite andb_true_iff, Extended_eqb_eq, IH.
  split; [intros [-> ->]; reflexivity | intros [= -> ->]; split; reflexivity].
Qed.

Lemma InternalNode_eqb_eq (a b : InternalNode) : InternalNode_eqb a b = true <-> a = b.
Proof.
  destruct a as [[k v]|k s|ss v], b as [[k' v']|k' s'|ss' v']; simpl;
    try (split; discriminate).
  - rewrite andb_true_iff, !bytes_eqb_eq.
    split; [intros [-> ->]; reflexivity | intros [= -> ->]; split; reflexivity].
  - rewrite andb_true_iff, bytes_eqb_eq, Extended_eqb_eq.
    split; [intros [-> ->]; reflexivity | intros [= -> ->]; split; reflexivity].
  - rewrite andb_true_iff, bytes_eqb_eq, Extended_list_eqb_eq.
    split; [intros [-> ->]; reflexivity | intros [= -> ->]; split; reflexivity].
Qed.

Lemma NodeRef_eqb_eq (a b : NodeRef) : NodeRef_eqb a b = true <-> a = b.
Proof.
  destruct a as [|n|e], b as [|n'|e']; simpl; try (split; (reflexivity || discriminate)).
  - rewrite InternalNode_eqb_eq. split; [intros ->; reflexivity | intros [= ->]; reflexivity].
  - rewrite Extended_eqb_eq. split; [intros ->; reflexivity | intros [= ->]; reflexivity].
Qed.

Lemma NodeRef_eqb_refl (a : NodeRef) : NodeRef_eqb a a = true.
Proof. apply NodeRef_eqb_eq. reflexivity. Qed.

Lemma NodeRef_eqb_neq (a b : NodeRef) : a <> b -> NodeRef_eqb a b = false.
Proof.
  intros Hne. destruct (NodeRef_eqb a b) eqn:Heq; [|reflexivity].
  apply NodeRef_eqb_eq in Heq. contradiction.
Qed.

(** ** What a walk keeps *)

Ltac walk_step :=
  match goal with
  | H : OK _ = OK _ |- _ => apply OK_inj in H; simplify_eq
  | H : Raise _ = OK _ |- _ => discriminate H
  | H : bind _ _ = OK _ |- _ =>
      let a := fresh "a" in let Ha := fresh "Ha" in
      apply bind_OK in H as (a & Ha & H)
  | H : (if ?b then _ else _) = OK _ |- _ => destruct b eqn:?
  end.

Section WalkPreserves.
Context {H : Helpers}.
Variable P : StateDiff -> Prop.
Variable process_leaf_diff : LeafHandler.
Hypothesis handler_keeps :
  forall path l r self self',
    P self -> process_leaf_diff path l r self = OK self' -> P self'.

(** The walker touches the accumulator only through the leaf handler:
    whatever the handler keeps, the walk keeps. *)
Lemma _compute_diff_preserves (depth : nat) :
  forall left right path self self',
    P self ->
    _compute_diff depth process_leaf_diff left right path self = OK self' ->
    P self'.
Proof.
  induction depth as [|depth IH]; intros left right path self self' HP Hrun.
  - discriminate Hrun.
  - cbn [_compute_diff] in Hrun.
    destruct (NodeRef_eqb left right); [inversion Hrun; subst; exact HP|].
    apply bind_OK in Hrun as (l_node & _ & Hrun).
    apply bind_OK in Hrun as (r_node & _ & Hrun).
    destruct l_node as [[l|lks lsub|lsubs lv]|], r_node as [[r|rks rsub|rsubs rv]|];
      repeat walk_step; eauto;
      try (eapply (for_each_preserves P); [|exact HP|eassumption];
           cbv beta; intros; repeat walk_step; eauto).
    refine (for_each_preserves (fun st : StateDiff * Bytes => P st.1)
              _ _ _ (self, rks) _ HP Ha0).
    cbv beta; intros i [s ks] [s' ks'] Hs Hbody; simpl in *.
    repeat walk_step; simpl; eauto.
Qed.
End WalkPreserves.

(** Both handlers leave the node store alone, and so does every walk. *)
Lemma _process_storage_diff_nodes `{Helpers} address path l r self self' :
  _process_storage_diff address path l r self = OK self' ->
  _nodes self' = _nodes self.
Proof.
  unfold _process_storage_diff. intros Hrun.
  repeat walk_step; repeat (case_match; repeat walk_step); reflexivity.
Qed.

Lemma _compute_diff_nodes `{Helpers} (h : LeafHandler) :
  (forall path l r self self',
     h path l r self = OK self' -> _nodes self' = _nodes self) ->
  forall depth left right path self self',
    _compute_diff depth h left right path self = OK self' ->
    _nodes self' = _nodes self.
Proof.
  intros Hh depth left right path self self' Hrun.
  apply (_compute_diff_preserves (fun s => _nodes s = _nodes self) h) in Hrun;
    [exact Hrun| |reflexivity].
  intros p l r s s' Hs Hcall. rewrite <- Hs. eauto.
Qed.

Lemma _process_account_diff_nodes `{Helpers} depth path l r self self' :
  _process_account_diff depth path l r self = OK self' ->
  _nodes self' = _nodes self.
Proof.
  unfold _process_account_diff. intros Hrun. repeat walk_step.
  apply _compute_diff_nodes in Hrun; [exact Hrun|].
  intros; eapply _process_storage_diff_nodes; eassumption.
Qed.

(** ** The equal-references fast path *)

(** C5. For every pair of equal references ([==] of Python on references
    is structural, [NodeRef_eqb_eq]) the walker returns at once with the
    accumulator as it was: the outcome is the same for every node store,
    for a reference that [resolve] would refuse and for a handler that
    would raise, so neither was consulted.  When [state_root] equals
    [post_state_root], [from_tries] returns the accumulator it started
    from, with both diff maps empty. *)
Theorem equal_refs_return_immediately `{Helpers} :
  (forall depth process_leaf_diff ref path self,
     _compute_diff (S depth) process_leaf_diff ref ref path self = OK self) /\
  (forall depth store addresses slots root,
     from_tries (S depth) (mkTransitionDB store addresses slots root root)
     = OK (mkStateDiff ∅ ∅ store addresses slots)).
Proof.
  assert (Hfast : forall depth process_leaf_diff ref path self,
    _compute_diff (S depth) process_leaf_diff ref ref path self = OK self).
  { intros. cbn [_compute_diff]. rewrite NodeRef_eqb_refl. reflexivity. }
  split; [exact Hfast|].
  intros. unfold from_tries. cbn [nodes address_preimages storage_key_preimages
    state_root post_state_root]. apply Hfast.
Qed.

(** The fast path at work: a reference that [resolve] refuses, a handler
    that raises on every call, and the walk of the pair still returns. *)
Lemma fast_path_consults_nothing :
  let self := Scenario.accumulator Scenario.genesis in
  let bad := RExt (EBytes [1; 2; 3]) in
  resolve (H := Reference.helpers) bad (_nodes self) = Raise ValueError /\
  _compute_diff (H := Reference.helpers) 1 (fun _ _ _ _ => Raise KeyError)
    bad bad [] self = OK self.
Proof. split; vm_compute; reflexivity. Qed.

(** ** Hash references missing from the store *)

Lemma resolve_missing_hash `{Helpers} (h : Bytes) (store : gmap Bytes InternalNode) :
  length h = 32%nat -> store !! h = None ->
  resolve (RExt (EBytes h)) store = OK None.
Proof.
  intros Hlen Hmiss. unfold resolve.
  destruct (bytes_eqb h []) eqn:Hempty; [reflexivity|].
  rewrite Hlen. simpl. rewrite Hmiss. reflexivity.
Qed.

(** Walking against an absent side does not depend on how the absence is
    written, as long as the fast path does not fire. *)
Lemma _compute_diff_absent_left `{Helpers} depth h left right path self :
  resolve left (_nodes self) = OK None ->
  left <> right ->
  _compute_diff depth h left right path self
  = _compute_diff depth h RNone right path self.
Proof.
  intros Hl Hne. destruct depth as [|depth]; [reflexivity|].
  cbn [_compute_diff]. rewrite (NodeRef_eqb_neq _ _ Hne), Hl.
  destruct (NodeRef_eqb RNone right) eqn:Heq.
  - apply NodeRef_eqb_eq in Heq. subst right. reflexivity.
  - reflexivity.
Qed.

Lemma _compute_diff_absent_right `{Helpers} depth h left right path self :
  resolve right (_nodes self) = OK None ->
  left <> right ->
  _compute_diff depth h left right path self
  = _compute_diff depth h left RNone path self.
Proof.
  intros Hr Hne. destruct depth as [|depth]; [reflexivity|].
  cbn [_compute_diff]. rewrite (NodeRef_eqb_neq _ _ Hne), Hr.
  destruct (NodeRef_eqb left RNone) eqn:Heq.
  - apply NodeRef_eqb_eq in Heq. subst left. reflexivity.
  - reflexivity.
Qed.

(** C2 (as the code has it). A 32-byte hash that names no node of the store
    resolves to [None] without an exception, and the walk goes on exactly
    as if that side had been given as [None], on the left as on the right. *)
Theorem missing_hash_walks_as_absent `{Helpers} depth process_leaf_diff
    (h : Bytes) (other : NodeRef) path self :
  length h = 32%nat ->
  _nodes self !! h = None ->
  other <> RExt (EBytes h) ->
  resolve (RExt (EBytes h)) (_nodes self) = OK None /\
  _compute_diff depth process_leaf_diff (RExt (EBytes h)) other path self
  = _compute_diff depth process_leaf_diff RNone other path self /\
  _compute_diff depth process_leaf_diff other (RExt (EBytes h)) path self
  = _compute_diff depth process_leaf_diff other RNone path self.
Proof.
  intros Hlen Hmiss Hne.
  pose proof (resolve_missing_hash h (_nodes self) Hlen Hmiss) as Hres.
  split; [exact Hres|]. split.
  - apply _compute_diff_absent_left; [exact Hres | congruence].
  - apply _compute_diff_absent_right; [exact Hres | exact Hne].
Qed.

Lemma missing_hash_walks_as_absent_witness :
  let self := Scenario.accumulator Scenario.genesis in
  let h := _process_account_diff (H := Reference.helpers) 3 in
  resolve (H := Reference.helpers) (RExt (EBytes (Scenario.hash 99))) (_nodes self)
  = OK None /\
  _compute_diff (H := Reference.helpers) 3 h
    (RExt (EBytes (Scenario.hash 99))) (RExt (EBytes (Scenario.hash 8))) [] self
  = _compute_diff (H := Reference.helpers) 3 h
    RNone (RExt (EBytes (Scenario.hash 8))) [] self /\
  _compute_diff (H := Reference.helpers) 3 h
    (RExt (EBytes (Scenario.hash 8))) (RExt (EBytes (Scenario.hash 99))) [] self
  = _compute_diff (H := Reference.helpers) 3 h
    (RExt (EBytes (Scenario.hash 8))) RNone [] self.
Proof.
  apply (missing_hash_walks_as_absent (H := Reference.helpers)).
  - reflexivity.
  - vm_compute. reflexivity.
  - discriminate.
Defined.

(** C2 (as stated) fails: the root [hash 99] of the state before the block
    names no node of the store and differs from the root after it, so the
    walker needs it; the diff does not fail, it reports the account under
    the other root, and its storage slot, as created. *)
Lemma missing_root_is_not_an_error :
  Scenario.genesis_store !! Scenario.hash 99 = None /\
  from_tries (H := Reference.helpers) 3 Scenario.genesis
  = OK (mkStateDiff
          {[ Scenario.address_C := (None, Some Scenario.account_C) ]}
          {[ Scenario.address_C := {[ Scenario.slot_number := (None, Some 9) ]} ]}
          Scenario.genesis_store Scenario.addresses Scenario.slots).
Proof. split; vm_compute; reflexivity. Qed.

(** ** The cases of the dispatch *)

(** Two references that resolve to different nodes are different. *)
Lemma resolved_apart `{Helpers} left right store (l r : option InternalNode) :
  resolve left store = OK l -> resolve right store = OK r -> l <> r ->
  NodeRef_eqb left right = false.
Proof.
  intros Hl Hr Hne. apply NodeRef_eqb_neq. intros ->. congruence.
Qed.

(** C6. Leaf against leaf: same [rest_of_key] and same value, no handler
    call; same [rest_of_key] and different values, exactly one call with
    both leaves at [path + rest_of_key]; different [rest_of_key], exactly
    two calls, the deletion of the left leaf at [path + l.rest_of_key]
    and then the creation of the right leaf at [path + r.rest_of_key]. *)
Theorem leaf_leaf_handler_calls `{Helpers} depth process_leaf_diff
    left right path self (l r : LeafNode) :
  resolve left (_nodes self) = OK (Some (Leaf l)) ->
  resolve right (_nodes self) = OK (Some (Leaf r)) ->
  let walk := _compute_diff (S depth) process_leaf_diff left right path self in
  (rest_of_key l = rest_of_key r -> value l = value r -> walk = OK self) /\
  (rest_of_key l = rest_of_key r -> value l <> value r ->
   walk = (full_path <- nibble_list_to_bytes (path ++ rest_of_key l) ;;
           process_leaf_diff full_path (Some l) (Some r) self)) /\
  (rest_of_key l <> rest_of_key r ->
   walk = (path_left <- nibble_list_to_bytes (path ++ rest_of_key l) ;;
           path_right <- nibble_list_to_bytes (path ++ rest_of_key r) ;;
           self' <- process_leaf_diff path_left (Some l) None self ;;
           process_leaf_diff path_right None (Some r) self')).
Proof.
  intros Hl Hr walk. subst walk. cbn [_compute_diff].
  split; [|split].
  - intros Hk Hv. destruct (NodeRef_eqb left right); [reflexivity|].
    rewrite Hl, Hr. cbn [bind].
    rewrite Hk, Hv, !bytes_eqb_refl. reflexivity.
  - intros Hk Hv.
    rewrite (resolved_apart _ _ _ _ _ Hl Hr) by (intros [= ->]; contradiction).
    rewrite Hl, Hr. cbn [bind]. rewrite Hk, bytes_eqb_refl.
    destruct (bytes_eqb (value l) (value r)) eqn:Heq; [|reflexivity].
    apply bytes_eqb_eq in Heq. contradiction.
  - intros Hk.
    rewrite (resolved_apart _ _ _ _ _ Hl Hr) by (intros [= ->]; contradiction).
    rewrite Hl, Hr. cbn [bind].
    destruct (bytes_eqb (rest_of_key l) (rest_of_key r)) eqn:Heq; [|reflexivity].
    apply bytes_eqb_eq in Heq. contradiction.
Qed.

Lemma leaf_leaf_handler_calls_witness :
  let self := Scenario.accumulator Scenario.create_C in
  let h := _process_storage_diff (H := Reference.helpers) Scenario.address_A in
  let walk := _compute_diff (H := Reference.helpers) 1 h in
  walk (RExt (EBytes (Scenario.hash 20))) (RNode (Leaf Scenario.slot_of_A)) [] self
  = OK self /\
  walk (RNode (Leaf Scenario.slot_of_A)) (RNode (Leaf Scenario.slot_of_C)) [] self
  = h Scenario.key_slot (Some Scenario.slot_of_A) (Some Scenario.slot_of_C) self /\
  walk (RNode (Leaf Scenario.leaf_A)) (RNode (Leaf Scenario.leaf_C)) [1; 2; 3] self
  = (path_left <- Reference.nibble_list_to_bytes ([1; 2; 3] ++ Scenario.zeros 61) ;;
     path_right <- Reference.nibble_list_to_bytes ([1; 2; 3] ++ Scenario.zeros 63) ;;
     self' <- h path_left (Some Scenario.leaf_A) None self ;;
     h path_right None (Some Scenario.leaf_C) self').
Proof.
  intros self h walk. split; [|split].
  - apply (leaf_leaf_handler_calls (H := Reference.helpers) 0 h
             (RExt (EBytes (Scenario.hash 20))) (RNode (Leaf Scenario.slot_of_A))
             [] self Scenario.slot_of_A Scenario.slot_of_A);
      [vm_compute; reflexivity | reflexivity | reflexivity | reflexivity].
  - refine (proj1 (proj2 (leaf_leaf_handler_calls (H := Reference.helpers) 0 h
             (RNode (Leaf Scenario.slot_of_A)) (RNode (Leaf Scenario.slot_of_C))
             [] self Scenario.slot_of_A Scenario.slot_of_C eq_refl eq_refl)) _ _);
      [reflexivity | discriminate].
  - refine (proj2 (proj2 (leaf_leaf_handler_calls (H := Reference.helpers) 0 h
             (RNode (Leaf Scenario.leaf_A)) (RNode (Leaf Scenario.leaf_C))
             [1; 2; 3] self Scenario.leaf_A Scenario.leaf_C eq_refl eq_refl)) _).
    vm_compute. discriminate.
Defined.

(** A loop over a pair whose second component stays what it was is the
    loop over the first component. *)
Lemma for_each_constant_second {I S T : Type} (xs : list I) (t : T)
    (body2 : I -> S * T -> result (S * T)) (body : I -> S -> result S) (s : S) :
  (forall i s, body2 i (s, t) = (s' <- body i s ;; OK (s', t))) ->
  (st <- for_each xs body2 (s, t) ;; OK st.1) = for_each xs body s.
Proof.
  intros Hbody. revert s. induction xs as [|x xs IH]; intros s; simpl; [reflexivity|].
  rewrite Hbody. destruct (body x s) as [s1|e]; simpl; [apply IH | reflexivity].
Qed.

Lemma for_each_ext {I S : Type} (xs : list I) (body1 body2 : I -> S -> result S) (s : S) :
  (forall i s, body1 i s = body2 i s) ->
  for_each xs body1 s = for_each xs body2 s.
Proof.
  intros Hbody. apply (for_each_agree (fun _ => True)); auto.
Qed.

(** C1 (what the code does). Extension against branch: the test
    [l_node.key_segment[0] == nibble] compares an [int] with a [bytes] and
    is false for each of the sixteen nibbles, so every slot [i], the one
    named by the extension's first nibble included, is walked as
    [(None, subnodes[i])]: the subtree of the left extension is never
    descended into. *)
Theorem extension_branch_walks_no_slot_aligned `{Helpers} depth process_leaf_diff
    left right path self l_key_segment l_subnode r_subnodes r_value :
  resolve left (_nodes self) = OK (Some (ExtensionNode l_key_segment l_subnode)) ->
  resolve right (_nodes self) = OK (Some (BranchNode r_subnodes r_value)) ->
  _compute_diff (S depth) process_leaf_diff left right path self
  = (check_branch_node (BranchNode r_subnodes r_value) ;;;
     for_each range16 (fun i self =>
       _ <- index l_key_segment 0 ;;
       r_i <- index r_subnodes i ;;
       _compute_diff depth process_leaf_diff RNone (RExt r_i) (path ++ [i]) self)
       self).
Proof.
  intros Hl Hr. cbn [_compute_diff].
  rewrite (resolved_apart _ _ _ _ _ Hl Hr) by discriminate.
  rewrite Hl, Hr. cbn [bind].
  destruct (check_branch_node (BranchNode r_subnodes r_value)); [|reflexivity].
  apply for_each_ext. intros i s.
  destruct (index l_key_segment 0); reflexivity.
Qed.

Lemma extension_branch_walks_no_slot_aligned_witness :
  let self := Scenario.accumulator Scenario.create_C in
  let h := _process_account_diff (H := Reference.helpers) 9 in
  _compute_diff (H := Reference.helpers) 10 h
    (RExt (EBytes (Scenario.hash 1))) (RExt (EBytes (Scenario.hash 7))) [] self
  = (Reference.check_branch_node Scenario.post_root_node ;;;
     for_each range16 (fun i self =>
       _ <- index [1; 2] 0 ;;
       r_i <- index (<[1%nat := EBytes (Scenario.hash 6)]>
                       (<[5%nat := EBytes (Scenario.hash 5)]> Scenario.empty_subnodes)) i ;;
       _compute_diff (H := Reference.helpers) 9 h RNone (RExt r_i) ([] ++ [i]) self)
       self).
Proof.
  intros self h.
  apply (extension_branch_walks_no_slot_aligned (H := Reference.helpers) 9 h
           (RExt (EBytes (Scenario.hash 1))) (RExt (EBytes (Scenario.hash 7)))
           [] self [1; 2] (EBytes (Scenario.hash 2))).
  - vm_compute. reflexivity.
  - vm_compute. reflexivity.
Defined.

(** C3 (what the code does). Branch against extension: the helper is
    applied to the extension; the test [r_node.key_segment[0] == nibble]
    compares an [int] with a [bytes] and is false for each nibble, so the
    assignment to [r_node.key_segment] is never reached, no shortened node
    is built and every slot [i] is walked as [(subnodes[i], None)]. *)
Theorem branch_extension_walks_no_slot_aligned `{Helpers} depth process_leaf_diff
    left right path self l_subnodes l_value r_key_segment r_subnode :
  resolve left (_nodes self) = OK (Some (BranchNode l_subnodes l_value)) ->
  resolve right (_nodes self) = OK (Some (ExtensionNode r_key_segment r_subnode)) ->
  _compute_diff (S depth) process_leaf_diff left right path self
  = (check_branch_node (ExtensionNode r_key_segment r_subnode) ;;;
     for_each range16 (fun i self =>
       _ <- index r_key_segment 0 ;;
       l_i <- index l_subnodes i ;;
       _compute_diff depth process_leaf_diff (RExt l_i) RNone (path ++ [i]) self)
       self).
Proof.
  intros Hl Hr. cbn [_compute_diff].
  rewrite (resolved_apart _ _ _ _ _ Hl Hr) by discriminate.
  rewrite Hl, Hr. cbn [bind].
  destruct (check_branch_node (ExtensionNode r_key_segment r_subnode)); [|reflexivity].
  apply for_each_constant_second. intros i s. cbn [fst snd].
  destruct (index r_key_segment 0); [|reflexivity]. cbn [bind py_eq].
  destruct (index l_subnodes i); [|reflexivity]. cbn [bind].
  destruct (_compute_diff depth process_leaf_diff (RExt a1) RNone (path ++ [i]) s);
    reflexivity.
Qed.

Lemma branch_extension_walks_no_slot_aligned_witness :
  let self := Scenario.accumulator Scenario.delete_C in
  let h := _process_account_diff (H := Reference.helpers) 9 in
  _compute_diff (H := Reference.helpers) 10 h
    (RExt (EBytes (Scenario.hash 7))) (RExt (EBytes (Scenario.hash 1))) [] self
  = (Reference.check_branch_node Scenario.pre_root_node ;;;
     for_each range16 (fun i self =>
       _ <- index [1; 2] 0 ;;
       l_i <- index (<[1%nat := EBytes (Scenario.hash 6)]>
                       (<[5%nat := EBytes (Scenario.hash 5)]> Scenario.empty_subnodes)) i ;;
       _compute_diff (H := Reference.helpers) 9 h (RExt l_i) RNone ([] ++ [i]) self)
       self).
Proof.
  intros self h.
  apply (branch_extension_walks_no_slot_aligned (H := Reference.helpers) 9 h
           (RExt (EBytes (Scenario.hash 7))) (RExt (EBytes (Scenario.hash 1)))
           [] self _ [] [1; 2] (EBytes (Scenario.hash 2))).
  - vm_compute. reflexivity.
  - vm_compute. reflexivity.
Defined.

(** C4 (what the code does). Branch against leaf: the helper is applied to
    the right-hand leaf.  The value of the left-hand branch does not occur
    in the outcome: that branch is never validated. *)
Theorem branch_leaf_validates_the_leaf `{Helpers} depth process_leaf_diff
    left right path self l_subnodes l_value (r : LeafNode) :
  resolve left (_nodes self) = OK (Some (BranchNode l_subnodes l_value)) ->
  resolve right (_nodes self) = OK (Some (Leaf r)) ->
  _compute_diff (S depth) process_leaf_diff left right path self
  = (check_branch_node (Leaf r) ;;;
     for_each range16 (fun i self =>
       k0 <- index (rest_of_key r) 0 ;;
       l_i <- index l_subnodes i ;;
       _compute_diff depth process_leaf_diff (RExt l_i)
         (if i =? k0
          then RNode (Leaf (mkLeafNode (drop 1 (rest_of_key r)) (value r)))
          else RNone)
         (path ++ [i]) self) self).
Proof.
  intros Hl Hr. cbn [_compute_diff].
  rewrite (resolved_apart _ _ _ _ _ Hl Hr) by discriminate.
  rewrite Hl, Hr. cbn [bind].
  destruct (check_branch_node (Leaf r)); [|reflexivity].
  apply for_each_ext. intros i s.
  destruct (index (rest_of_key r) 0) as [k0|e]; [|reflexivity]. cbn [bind].
  destruct (i =? k0); reflexivity.
Qed.

Lemma branch_leaf_validates_the_leaf_witness :
  let self := Scenario.accumulator Scenario.delete_B in
  let h := _process_account_diff (H := Reference.helpers) 9 in
  let r := mkLeafNode ([3] ++ Scenario.zeros 61) (value Scenario.lone_leaf_A) in
  _compute_diff (H := Reference.helpers) 9 h
    (RExt (EBytes (Scenario.hash 2))) (RNode (Leaf r)) [1; 2] self
  = (Reference.check_branch_node (Leaf r) ;;;
     for_each range16 (fun i self =>
       k0 <- index (rest_of_key r) 0 ;;
       l_i <- index (<[3%nat := EBytes (Scenario.hash 3)]>
                       (<[4%nat := EBytes (Scenario.hash 4)]> Scenario.empty_subnodes)) i ;;
       _compute_diff (H := Reference.helpers) 8 h (RExt l_i)
         (if i =? k0
          then RNode (Leaf (mkLeafNode (drop 1 (rest_of_key r)) (value r)))
          else RNone)
         ([1; 2] ++ [i]) self) self).
Proof.
  intros self h r.
  apply (branch_leaf_validates_the_leaf (H := Reference.helpers) 8 h
           (RExt (EBytes (Scenario.hash 2))) (RNode (Leaf r)) [1; 2] self _ [] r).
  - vm_compute. reflexivity.
  - reflexivity.
Defined.

(** With a helper that asserts an empty [value] on the object it is given,
    deleting [B] makes the diff fail on a valid pair of tries: the
    assertion meets the payload of the leaf. *)
Lemma delete_B_raises :
  from_tries (H := Reference.helpers) 10 Scenario.delete_B = Raise BadBranch.
Proof. vm_compute. reflexivity. Qed.

(** Deleting [C] meets the branch-against-extension case at the root. *)
Lemma delete_C_raises :
  from_tries (H := Reference.helpers) 10 Scenario.delete_C = Raise AttributeError.
Proof. vm_compute. reflexivity. Qed.

(** ** Storage nesting *)

Lemma lookup_storage_setitem (address key : Bytes) (entry : option Z * option Z)
    (tries : gmap Bytes (gmap Bytes (option Z * option Z))) (a : Bytes) :
  storage_setitem address key entry tries !! a
  = if decide (address = a)
    then Some (<[key := entry]> (default ∅ (tries !! address)))
    else tries !! a.
Proof.
  unfold storage_setitem.
  destruct (tries !! address) as [inner|] eqn:Hinner.
  - rewrite Hinner. rewrite lookup_insert. case_decide; reflexivity.
  - rewrite lookup_insert_eq. rewrite insert_insert_eq, lookup_insert.
    case_decide; reflexivity.
Qed.

Lemma dom_storage_setitem (address key : Bytes) (entry : option Z * option Z)
    (tries : gmap Bytes (gmap Bytes (option Z * option Z))) :
  dom (storage_setitem address key entry tries) = {[address]} ∪ dom tries.
Proof.
  apply set_eq. intros a.
  rewrite elem_of_union, elem_of_singleton, !elem_of_dom, lookup_storage_setitem.
  case_decide as Ha.
  - split; [intros _; left; congruence | intros _; eexists; reflexivity].
  - split; [intros Hs; right; exact Hs | intros [Heq|Hs]; [congruence | exact Hs]].
Qed.

Lemma _process_storage_diff_nested `{Helpers} address path l r self self' :
  storage_nested self /\ address ∈ dom (_main_trie self) ->
  _process_storage_diff address path l r self = OK self' ->
  storage_nested self' /\ address ∈ dom (_main_trie self').
Proof.
  unfold _process_storage_diff, storage_nested. intros [Hnest Haddr] Hrun.
  repeat walk_step; try destruct r; repeat walk_step;
    cbn [_storage_tries _main_trie set_storage_tries];
    rewrite dom_storage_setitem;
    (split; [apply union_subseteq; split;
               [apply singleton_subseteq_l; exact Haddr | exact Hnest]
            | exact Haddr]).
Qed.

Lemma _process_account_diff_nested `{Helpers} depth path l r self self' :
  storage_nested self ->
  _process_account_diff depth path l r self = OK self' ->
  storage_nested self'.
Proof.
  unfold _process_account_diff. intros Hnest Hrun. repeat walk_step.
  eapply (_compute_diff_preserves
            (fun s => storage_nested s /\ a ∈ dom (_main_trie s))) in Hrun.
  - exact (proj1 Hrun).
  - intros; eapply _process_storage_diff_nested; eassumption.
  - unfold storage_nested in *.
    cbn [_storage_tries _main_trie set_main_trie]. rewrite dom_insert_L.
    split; set_solver.
Qed.

(** C9. In the accumulator returned by [from_tries], every address that has
    an entry in the storage diffs has an entry in the account diffs: the
    storage walk of an address is launched by the account handler, after
    it has recorded the account pair of that address. *)
Theorem storage_diffs_nested_in_account_diffs `{Helpers} depth tries diff :
  from_tries depth tries = OK diff ->
  forall address, address ∈ dom (_storage_tries diff) ->
                  address ∈ dom (_main_trie diff).
Proof.
  unfold from_tries. intros Hrun.
  eapply (_compute_diff_preserves storage_nested) in Hrun.
  - exact Hrun.
  - intros; eapply _process_account_diff_nested; eassumption.
  - unfold storage_nested. cbn [_storage_tries _main_trie]. set_solver.
Qed.

Lemma storage_diffs_nested_in_account_diffs_witness :
  let diff :=
    mkStateDiff
      {[ Scenario.address_C := (None, Some Scenario.account_C) ]}
      {[ Scenario.address_C := {[ Scenario.slot_number := (None, Some 9) ]} ]}
      Scenario.genesis_store Scenario.addresses Scenario.slots in
  from_tries (H := Reference.helpers) 3 Scenario.genesis = OK diff /\
  Scenario.address_C ∈ dom (_storage_tries diff) /\
  Scenario.address_C ∈ dom (_main_trie diff).
Proof.
  intros diff.
  assert (Hrun : from_tries (H := Reference.helpers) 3 Scenario.genesis = OK diff)
    by (vm_compute; reflexivity).
  assert (Hin : Scenario.address_C ∈ dom (_storage_tries diff))
    by (cbn [_storage_tries diff]; rewrite dom_singleton_L; apply elem_of_singleton_2;
        reflexivity).
  split; [exact Hrun|]. split; [exact Hin|].
  exact (storage_diffs_nested_in_account_diffs (H := Reference.helpers)
           3 Scenario.genesis diff Hrun Scenario.address_C Hin).
Defined.

(** ** Key width *)

Lemma startswith_length (s prefix : Bytes) :
  startswith s prefix = true -> (length prefix <= length s)%nat.
Proof.
  revert s. induction prefix as [|p prefix IH]; intros [|x s]; simpl; intros Hs;
    try lia; try discriminate.
  apply andb_true_iff in Hs as [_ Hs]. apply IH in Hs. lia.
Qed.

Lemma index_0_length {A : Type} (l : list A) (x : A) :
  index l 0 = OK x -> (1 <= length l)%nat.
Proof. destruct l; simpl; [discriminate | lia]. Qed.

Section KeyWidth.
Context {H : Helpers}.
Variable store : gmap Bytes InternalNode.
Variable h : LeafHandler.
Hypothesis packing :
  forall nibbles packed n,
    nibble_list_to_bytes nibbles = OK packed ->
    length nibbles = (2 * n)%nat -> length packed = n.
Hypothesis handler_keeps_nodes :
  forall path l r self self',
    h path l r self = OK self' -> _nodes self' = _nodes self.

Lemma key_width_leaf d ref l :
  key_width store d ref -> resolve ref store = OK (Some (Leaf l)) ->
  (d + length (rest_of_key l) = 64)%nat.
Proof. intros Hkw Hres. inversion Hkw; subst; congruence. Qed.

Lemma key_width_extension d ref ks sub :
  key_width store d ref -> resolve ref store = OK (Some (ExtensionNode ks sub)) ->
  key_width store (d + length ks) (RExt sub).
Proof. intros Hkw Hres. inversion Hkw; subst; congruence. Qed.

Lemma key_width_branch d ref subs v i s :
  key_width store d ref -> resolve ref store = OK (Some (BranchNode subs v)) ->
  index subs i = OK s ->
  key_width store (S d) (RExt s).
Proof.
  intros Hkw Hres Hi. inversion Hkw as [| | |d' ref' subs' v' Hres' Hall]; subst;
    try congruence.
  assert (subs' = subs) by congruence. subst.
  unfold index in Hi. destruct (nth_error subs (Z.to_nat i)) eqn:Hnth; [|discriminate].
  apply OK_inj in Hi. subst. apply nth_error_In in Hnth.
  rewrite Forall_forall in Hall. apply Hall. apply list_elem_of_In. exact Hnth.
Qed.

Lemma key_width_None d : key_width store d RNone.
Proof. apply kw_absent. reflexivity. Qed.

Lemma key_width_shortened_leaf d n (l : LeafNode) :
  (d + length (rest_of_key l) = 64)%nat -> (n <= length (rest_of_key l))%nat ->
  key_width store (d + n) (RNode (Leaf (mkLeafNode (drop n (rest_of_key l)) (value l)))).
Proof.
  intros Hd Hn. eapply kw_leaf; [reflexivity|].
  cbn [rest_of_key]. rewrite length_drop. lia.
Qed.

Lemma key_width_shortened_extension d n ks sub :
  key_width store (d + length ks) (RExt sub) -> (n <= length ks)%nat ->
  key_width store (d + n) (RNode (ExtensionNode (drop n ks) sub)).
Proof.
  intros Hkw Hn. eapply kw_extension; [reflexivity|].
  rewrite length_drop. replace (d + n + (length ks - n))%nat with (d + length ks)%nat by lia.
  exact Hkw.
Qed.

Lemma asserting_keeps_nodes path l r self self' :
  asserting_32_bytes h path l r self = OK self' -> _nodes self' = _nodes self.
Proof.
  unfold asserting_32_bytes. destruct (length path =? 32)%nat; [|discriminate].
  apply handler_keeps_nodes.
Qed.

Lemma asserting_pass nibbles packed l r self :
  nibble_list_to_bytes nibbles = OK packed -> length nibbles = 64%nat ->
  asserting_32_bytes h packed l r self = h packed l r self.
Proof.
  intros Hp Hlen. unfold asserting_32_bytes.
  rewrite (packing _ _ 32%nat Hp Hlen). reflexivity.
Qed.

Lemma walk_keeps_nodes depth left right path self self' :
  _compute_diff depth h left right path self = OK self' ->
  _nodes self' = _nodes self.
Proof. apply _compute_diff_nodes. exact handler_keeps_nodes. Qed.

Ltac kw_lengths := rewrite ?length_app; cbn [length]; rewrite ?Nat.add_1_r.

Ltac kw_emit :=
  repeat match goal with
  | |- context [nibble_list_to_bytes ?x] =>
      let Hp := fresh "Hp" in
      destruct (nibble_list_to_bytes x) eqn:Hp; cbn [bind]; [|reflexivity]
  end;
  repeat match goal with
  | Hp : nibble_list_to_bytes _ = OK ?p |- context [asserting_32_bytes h ?p] =>
      rewrite (asserting_pass _ p _ _ _ Hp) by (kw_lengths; lia)
  | |- context [bind (h ?p ?l ?r ?s)] =>
      let Hc := fresh "Hc" in
      destruct (h p l r s) eqn:Hc; cbn [bind]; [|reflexivity]
  end.

Ltac kw_index :=
  repeat match goal with
  | |- context [index ?l ?i] =>
      let Hi := fresh "Hi" in
      destruct (index l i) eqn:Hi; cbn [bind]; [|reflexivity]
  end.

Ltac kw_loop Hstore :=
  repeat match goal with
  | |- context [check_branch_node ?n] =>
      destruct (check_branch_node n); cbn [bind]; [|reflexivity]
  end;
  apply (for_each_agree (fun s => _nodes s = store)); [| |exact Hstore].

Ltac kw_kept :=
  let Hs := fresh "Hs" in
  intros ? ? ? Hs ?; repeat walk_step;
  match goal with
  | Hw : _compute_diff _ _ _ _ _ _ = OK _ |- _ =>
      rewrite (walk_keeps_nodes _ _ _ _ _ _ Hw); exact Hs
  end.

Lemma walk_asserting (depth : nat) :
  forall left right path self,
    _nodes self = store ->
    key_width store (length path) left ->
    key_width store (length path) right ->
    _compute_diff depth (asserting_32_bytes h) left right path self
    = _compute_diff depth h left right path self.
Proof.
  induction depth as [|depth IH]; intros left right path self Hstore Hl Hr;
    [reflexivity|].
  cbn [_compute_diff]. destruct (NodeRef_eqb left right); [reflexivity|].
  rewrite Hstore.
  destruct (resolve left store) as [l_node|e] eqn:Hresl; [|reflexivity].
  destruct (resolve right store) as [r_node|e] eqn:Hresr; [|reflexivity].
  cbn [bind].
  destruct l_node as [[l|lks lsub|lsubs lv]|], r_node as [[r|rks rsub|rsubs rv]|].
  all: try pose proof (key_width_leaf _ _ _ Hl Hresl) as Hll.
  all: try pose proof (key_width_leaf _ _ _ Hr Hresr) as Hrl.
  all: try pose proof (key_width_extension _ _ _ _ Hl Hresl) as Hle.
  all: try pose proof (key_width_extension _ _ _ _ Hr Hresr) as Hre.
  all: try pose proof (fun i s => key_width_branch _ _ _ _ i s Hl Hresl) as Hlb.
  all: try pose proof (fun i s => key_width_branch _ _ _ _ i s Hr Hresr) as Hrb.
  - (* Leaf, Leaf *)
    destruct (bytes_eqb (rest_of_key l) (rest_of_key r));
      [destruct (negb (bytes_eqb (value l) (value r))); [|reflexivity]|];
      kw_emit; reflexivity.
  - (* Leaf, Extension *)
    destruct (startswith (rest_of_key l) rks) eqn:Hsw.
    + apply IH; [exact Hstore | kw_lengths | kw_lengths; exact Hre].
      apply key_width_shortened_leaf; [exact Hll | apply startswith_length; exact Hsw].
    + kw_emit. apply IH; [|kw_lengths; apply key_width_None|kw_lengths; exact Hre].
      rewrite (handler_keeps_nodes _ _ _ _ _ Hc). exact Hstore.
  - (* Leaf, Branch *)
    kw_loop Hstore.
    + intros i s Hs. kw_index.
      match goal with
      | Hk : index (rest_of_key l) 0 = OK _ |- _ => apply index_0_length in Hk
      end.
      match goal with |- context [negb ?b] => destruct (negb b) end;
        (apply IH; [exact Hs | kw_lengths | kw_lengths; eauto]).
      * apply key_width_None.
      * rewrite <- Nat.add_1_r.
        apply (key_width_shortened_leaf (length path) 1); assumption.
    + kw_kept.
  - (* Leaf, None *)
    kw_emit; reflexivity.
  - (* Extension, Leaf *)
    destruct (startswith (rest_of_key r) lks) eqn:Hsw.
    + apply IH; [exact Hstore | kw_lengths; exact Hle | kw_lengths].
      apply key_width_shortened_leaf; [exact Hrl | apply startswith_length; exact Hsw].
    + kw_emit. apply IH; [|kw_lengths; exact Hle|kw_lengths; apply key_width_None].
      rewrite (handler_keeps_nodes _ _ _ _ _ Hc). exact Hstore.
  - (* Extension, Extension *)
    destruct (bytes_eqb lks rks) eqn:Heq.
    { apply bytes_eqb_eq in Heq. subst rks.
      apply IH; [exact Hstore | kw_lengths; exact Hle | kw_lengths; exact Hre]. }
    destruct (startswith lks rks) eqn:Hlr.
    { apply IH; [exact Hstore | kw_lengths | kw_lengths; exact Hre].
      apply key_width_shortened_extension;
        [exact Hle | apply startswith_length; exact Hlr]. }
    destruct (startswith rks lks) eqn:Hrl'.
    { apply IH; [exact Hstore | kw_lengths; exact Hle | kw_lengths].
      apply key_width_shortened_extension;
        [exact Hre | apply startswith_length; exact Hrl']. }
    rewrite (IH (RExt lsub) RNone (path ++ lks) self Hstore)
      by (kw_lengths; first [exact Hle | apply key_width_None]).
    destruct (_compute_diff depth h (RExt lsub) RNone (path ++ lks) self)
      as [self1|e] eqn:Hfirst; [|reflexivity].
    cbn [bind]. apply IH; [|kw_lengths; apply key_width_None|kw_lengths; exact Hre].
    rewrite (walk_keeps_nodes _ _ _ _ _ _ Hfirst). exact Hstore.
  - (* Extension, Branch *)
    kw_loop Hstore.
    + intros i s Hs. kw_index. cbn [py_eq].
      apply IH; [exact Hs | kw_lengths; apply key_width_None | kw_lengths; eauto].
    + kw_kept.
  - (* Extension, None *)
    apply IH; [exact Hstore | kw_lengths; exact Hle | kw_lengths; apply key_width_None].
  - (* Branch, Leaf *)
    kw_loop Hstore.
    + intros i s Hs. kw_index.
      match goal with
      | Hk : index (rest_of_key r) 0 = OK _ |- _ => apply index_0_length in Hk
      end.
      match goal with |- context [negb ?b] => destruct (negb b) end;
        (apply IH; [exact Hs | kw_lengths; eauto | kw_lengths]).
      * apply key_width_None.
      * rewrite <- Nat.add_1_r.
        apply (key_width_shortened_leaf (length path) 1); assumption.
    + kw_kept.
  - (* Branch, Extension *)
    destruct (check_branch_node (ExtensionNode rks rsub)); cbn [bind]; [|reflexivity].
    f_equal.
    apply (for_each_agree (fun st : StateDiff * Bytes => _nodes st.1 = store));
      [| |exact Hstore].
    + intros i [s ks] Hs. cbn [fst snd] in *. kw_index. cbn [py_eq].
      rewrite IH; [reflexivity | exact Hs | kw_lengths; eauto
                  | kw_lengths; apply key_width_None].
    + intros i [s ks] [s' ks'] Hs Hbody. cbn [fst snd py_eq] in *.
      repeat walk_step.
      match goal with
      | Hw : _compute_diff _ _ _ _ _ _ = OK _ |- _ =>
          rewrite (walk_keeps_nodes _ _ _ _ _ _ Hw); exact Hs
      end.
  - (* Branch, Branch *)
    kw_loop Hstore.
    + intros i s Hs. kw_index.
      apply IH; [exact Hs | kw_lengths; eauto | kw_lengths; eauto].
    + kw_kept.
  - (* Branch, None *)
    kw_loop Hstore.
    + intros i s Hs. kw_index.
      apply IH; [exact Hs | kw_lengths; eauto | kw_lengths; apply key_width_None].
    + kw_kept.
  - (* None, Leaf *)
    kw_emit; reflexivity.
  - (* None, Extension *)
    apply IH; [exact Hstore | kw_lengths; apply key_width_None | kw_lengths; exact Hre].
  - (* None, Branch *)
    kw_loop Hstore.
    + intros i s Hs. kw_index.
      apply IH; [exact Hs | kw_lengths; apply key_width_None | kw_lengths; eauto].
    + kw_kept.
  - (* None, None *)
    reflexivity.
Qed.
End KeyWidth.

Lemma key_width_b_sound `{Helpers} fuel store :
  forall d ref, key_width_b fuel store d ref = true -> key_width store d ref.
Proof.
  induction fuel as [|fuel IH]; intros d ref Hb; [discriminate|].
  cbn [key_width_b] in Hb.
  destruct (resolve ref store) as [[[l|ks sub|subs v]|]|e] eqn:Hres.
  - eapply kw_leaf; [exact Hres|]. apply Nat.eqb_eq. exact Hb.
  - eapply kw_extension; [exact Hres|]. apply IH. exact Hb.
  - eapply kw_branch; [exact Hres|].
    apply Forall_forall. intros s Hs. apply IH.
    rewrite forallb_forall in Hb. apply Hb. apply list_elem_of_In. exact Hs.
  - apply kw_absent. exact Hres.
  - discriminate.
Qed.

Lemma Reference_packing :
  forall nibbles packed n,
    Reference.nibble_list_to_bytes nibbles = OK packed ->
    length nibbles = (2 * n)%nat -> length packed = n.
Proof.
  assert (Hlen : forall nibbles packed,
    Reference.nibble_list_to_bytes nibbles = OK packed ->
    length nibbles = (2 * length packed)%nat).
  { fix IH 1. intros [|hi [|lo rest]] packed Hp; simpl in Hp.
    - apply OK_inj in Hp. subst. reflexivity.
    - discriminate.
    - apply bind_OK in Hp as (tail & Htail & Hp). apply OK_inj in Hp. subst.
      apply IH in Htail. simpl. lia. }
  intros nibbles packed n Hp Hn. apply Hlen in Hp. lia.
Qed.

(** C8. In a walk over two tries whose leaves all close 64-nibble keys,
    every path handed to the leaf handler is 32 bytes long: putting
    [assert len(path) == 32] at the entry of the handler changes nothing
    to the walk, the calls made before a failure included.  The packing
    of [2 * n] nibbles into [n] bytes is what the spec says of
    [nibble_list_to_bytes]. *)
Theorem leaf_paths_are_32_bytes `{Helpers} store h depth left right path self :
  (forall nibbles packed n,
     nibble_list_to_bytes nibbles = OK packed ->
     length nibbles = (2 * n)%nat -> length packed = n) ->
  (forall path l r self self',
     h path l r self = OK self' -> _nodes self' = _nodes self) ->
  _nodes self = store ->
  key_width store (length path) left ->
  key_width store (length path) right ->
  _compute_diff depth (asserting_32_bytes h) left right path self
  = _compute_diff depth h left right path self.
Proof.
  intros Hpack Hkeeps. apply walk_asserting; assumption.
Qed.

Lemma leaf_paths_are_32_bytes_witness :
  let self := Scenario.accumulator Scenario.create_C in
  let h := _process_account_diff (H := Reference.helpers) 10 in
  _compute_diff (H := Reference.helpers) 10 (asserting_32_bytes h)
    (RExt (EBytes (Scenario.hash 1))) (RExt (EBytes (Scenario.hash 7))) [] self
  = _compute_diff (H := Reference.helpers) 10 h
    (RExt (EBytes (Scenario.hash 1))) (RExt (EBytes (Scenario.hash 7))) [] self.
Proof.
  intros self h.
  apply (leaf_paths_are_32_bytes (H := Reference.helpers) Scenario.store).
  - exact Reference_packing.
  - intros path l r s s'. apply (_process_account_diff_nodes (H := Reference.helpers)).
  - reflexivity.
  - apply (key_width_b_sound (H := Reference.helpers) 5). vm_compute. reflexivity.
  - apply (key_width_b_sound (H := Reference.helpers) 5). vm_compute. reflexivity.
Defined.

(** The assertion is not idle: under a leaf that closes a 62-nibble key it
    stops the walk before the handler, which otherwise is entered (and
    finds no preimage for the 31-byte path). *)
Lemma assertion_fires_on_short_key :
  let self := Scenario.accumulator Scenario.create_C in
  let h := _process_storage_diff (H := Reference.helpers) Scenario.address_A in
  let short := RNode (Leaf (mkLeafNode (Scenario.zeros 62) [5])) in
  _compute_diff (H := Reference.helpers) 2 (asserting_32_bytes h) RNone short [] self
  = Raise ValueError /\
  _compute_diff (H := Reference.helpers) 2 h RNone short [] self = Raise KeyError.
Proof. split; vm_compute; reflexivity. Qed.

(** ** Soundness of the accumulator *)

(** C7 (what the code does). The block that creates [C] leaves [A] and [B]
    as they were: the key of [A] holds the same value under both roots.
    The root pair is an extension against a branch, the walk never
    descends into the extension, and [from_tries] reports [A], [B] and the
    storage slot of [A] as created, next to [C] and its slot. *)
Theorem unchanged_accounts_reported_as_created :
  let key_of_A := [1; 2; 3] ++ Scenario.zeros 61 in
  trie_get (H := Reference.helpers) 10 Scenario.store
    (RExt (EBytes (state_root Scenario.create_C))) key_of_A
  = Some (value Scenario.leaf_A) /\
  trie_get (H := Reference.helpers) 10 Scenario.store
    (RExt (EBytes (post_state_root Scenario.create_C))) key_of_A
  = Some (value Scenario.leaf_A) /\
  from_tries (H := Reference.helpers) 10 Scenario.create_C
  = OK (mkStateDiff
          {[ Scenario.address_A := (None, Some Scenario.account_A);
             Scenario.address_B := (None, Some Scenario.account_B);
             Scenario.address_C := (None, Some Scenario.account_C) ]}
          {[ Scenario.address_A := {[ Scenario.slot_number := (None, Some 5) ]};
             Scenario.address_C := {[ Scenario.slot_number := (None, Some 9) ]} ]}
          Scenario.store Scenario.addresses Scenario.slots).
Proof. repeat split; vm_compute; reflexivity. Qed.

(** ** [from_data] *)

Lemma for_each_split {I S : Type} (xs ys : list I) (x : I)
    (body : I -> S -> result S) (s s' : S) :
  for_each (xs ++ x :: ys) body s = OK s' ->
  exists s1 s2,
    for_each xs body s = OK s1 /\ body x s1 = OK s2 /\ for_each ys body s2 = OK s'.
Proof.
  rewrite for_each_app. intros Hrun.
  apply bind_OK in Hrun as (s1 & Hxs & Hrun). cbn [for_each] in Hrun.
  apply bind_OK in Hrun as (s2 & Hx & Hys). eauto.
Qed.

Lemma U256_OK (n u : Z) : U256 n = OK u -> u = n /\ 0 <= n < 2 ^ 256.
Proof.
  unfold U256. destruct ((0 <=? n) && (n <? 2 ^ 256)) eqn:Hrange; [|discriminate].
  intros Hu. apply OK_inj in Hu. apply andb_true_iff in Hrange as [Hlo Hhi].
  split; [congruence | lia].
Qed.

Lemma zero_is_absent_parsed (n : Z) (v : option Z) :
  (if n =? 0 then OK None else u <- U256 n ;; OK (Some u)) = OK v ->
  v = zero_is_absent n /\ 0 <= n < 2 ^ 256.
Proof.
  unfold zero_is_absent. destruct (n =? 0) eqn:Hz; intros Hv.
  - apply OK_inj in Hv. split; [congruence | lia].
  - apply bind_OK in Hv as (u & Hu & Hv). apply OK_inj in Hv.
    apply U256_OK in Hu as [-> Hrange]. split; [congruence | exact Hrange].
Qed.

Lemma storage_slot_setitem (address key : Bytes) (entry : option Z * option Z)
    (tries : gmap Bytes (gmap Bytes (option Z * option Z))) (a k : Bytes) :
  storage_slot (storage_setitem address key entry tries) a k
  = if decide (address = a /\ key = k) then Some entry else storage_slot tries a k.
Proof.
  unfold storage_slot. rewrite lookup_storage_setitem.
  destruct (decide (address = a)) as [<-|Hna].
  - rewrite lookup_insert. destruct (decide (key = k)) as [<-|Hnk].
    + rewrite decide_True by (split; reflexivity). reflexivity.
    + rewrite decide_False by (intros [_ Heq]; contradiction).
      destruct (tries !! address); [reflexivity | apply lookup_empty].
  - rewrite decide_False by (intros [Heq _]; contradiction). reflexivity.
Qed.

(** One storage diff object: the slot it names holds its pair afterwards,
    every other slot and the account diffs are as before. *)
Lemma from_data_storage_slot `{Helpers} address sd s s' :
  from_data_storage address sd s = OK s' ->
  exists key pre_int post_int,
    FixedBytes_fromhex 32 (strip0x (j_storageKey sd)) = OK key /\
    int_base16 (strip0x (j_preValue sd)) = OK pre_int /\
    int_base16 (strip0x (j_postValue sd)) = OK post_int /\
    0 <= pre_int < 2 ^ 256 /\ 0 <= post_int < 2 ^ 256 /\
    forall a k,
      storage_slot (_storage_tries s') a k
      = if decide (address = a /\ key = k)
        then Some (zero_is_absent pre_int, zero_is_absent post_int)
        else storage_slot (_storage_tries s) a k.
Proof.
  unfold from_data_storage. intros Hrun.
  apply bind_OK in Hrun as (key & Hkey & Hrun).
  apply bind_OK in Hrun as (pre_int & Hpre & Hrun).
  apply bind_OK in Hrun as (post_int & Hpost & Hrun).
  apply bind_OK in Hrun as (pre & Hprev & Hrun).
  apply bind_OK in Hrun as (post & Hpostv & Hrun).
  apply OK_inj in Hrun. subst s'.
  apply zero_is_absent_parsed in Hprev as [-> Hpre_range].
  apply zero_is_absent_parsed in Hpostv as [-> Hpost_range].
  exists key, pre_int, post_int. repeat (split; [assumption|]).
  intros a k. cbn [_storage_tries set_storage_tries]. apply storage_slot_setitem.
Qed.

(** The storage loop of a diff object: a slot that is filled stays filled,
    and a slot that no object of the loop names keeps its pair. *)
Lemma from_data_storage_loop_slot `{Helpers} address storage :
  forall s s' a k,
    for_each storage (from_data_storage address) s = OK s' ->
    (is_Some (storage_slot (_storage_tries s) a k) ->
     is_Some (storage_slot (_storage_tries s') a k)) /\
    ((address = a ->
      forall sd, sd ∈ storage ->
        FixedBytes_fromhex 32 (strip0x (j_storageKey sd)) <> OK k) ->
     storage_slot (_storage_tries s') a k = storage_slot (_storage_tries s) a k).
Proof.
  induction storage as [|sd storage IH]; intros s s' a k Hrun; cbn [for_each] in Hrun.
  - apply OK_inj in Hrun. subst s'. split; [auto | reflexivity].
  - apply bind_OK in Hrun as (s1 & Hstep & Hrun).
    apply from_data_storage_slot in Hstep
      as (key & pre & post & Hkey & _ & _ & _ & _ & Hslot).
    destruct (IH _ _ a k Hrun) as [Hfilled Hkept]. split.
    + intros Hs. apply Hfilled. rewrite Hslot.
      case_decide; [eexists; reflexivity | exact Hs].
    + intros Hfresh. rewrite Hkept.
      * rewrite Hslot. apply decide_False. intros [Ha Hk]. subst k.
        exact (Hfresh Ha sd (list_elem_of_here _ _) Hkey).
      * intros Ha sd' Hsd'. apply (Hfresh Ha). apply list_elem_of_further. exact Hsd'.
Qed.

(** The same for a whole diff object. *)
Lemma from_data_diff_slot `{Helpers} diff s s' a k :
  from_data_diff diff s = OK s' ->
  (is_Some (storage_slot (_storage_tries s) a k) ->
   is_Some (storage_slot (_storage_tries s') a k)) /\
  ((forall storage sd,
      FixedBytes_fromhex 20 (strip0x (j_address diff)) = OK a ->
      j_storage diff = Some storage -> sd ∈ storage ->
      FixedBytes_fromhex 32 (strip0x (j_storageKey sd)) <> OK k) ->
   storage_slot (_storage_tries s') a k = storage_slot (_storage_tries s) a k).
Proof.
  unfold from_data_diff. intros Hrun.
  apply bind_OK in Hrun as (address & Haddress & Hrun).
  apply bind_OK in Hrun as (pre_account & _ & Hrun).
  apply bind_OK in Hrun as (post_account & _ & Hrun).
  apply bind_OK in Hrun as (s1 & Hloop & Hrun). apply OK_inj in Hrun. subst s'.
  cbn [_storage_tries set_main_trie].
  destruct (j_storage diff) as [storage|].
  - destruct (from_data_storage_loop_slot _ _ _ _ a k Hloop) as [Hfilled Hkept].
    split; [exact Hfilled|]. intros Hfresh. apply Hkept.
    intros <- sd Hsd. exact (Hfresh storage sd Haddress eq_refl Hsd).
  - apply OK_inj in Hloop. subst s1. split; [auto | reflexivity].
Qed.

(** The same for the diff objects that follow. *)
Lemma from_data_diffs_slot `{Helpers} stateDiffs :
  forall s s' a k,
    for_each stateDiffs from_data_diff s = OK s' ->
    (is_Some (storage_slot (_storage_tries s) a k) ->
     is_Some (storage_slot (_storage_tries s') a k)) /\
    ((forall diff storage sd,
        diff ∈ stateDiffs ->
        FixedBytes_fromhex 20 (strip0x (j_address diff)) = OK a ->
        j_storage diff = Some storage -> sd ∈ storage ->
        FixedBytes_fromhex 32 (strip0x (j_storageKey sd)) <> OK k) ->
     storage_slot (_storage_tries s') a k = storage_slot (_storage_tries s) a k).
Proof.
  induction stateDiffs as [|diff stateDiffs IH]; intros s s' a k Hrun;
    cbn [for_each] in Hrun.
  - apply OK_inj in Hrun. subst s'. split; [auto | reflexivity].
  - apply bind_OK in Hrun as (s1 & Hstep & Hrun).
    destruct (from_data_diff_slot _ _ _ a k Hstep) as [Hfilled1 Hkept1].
    destruct (IH _ _ a k Hrun) as [Hfilled Hkept]. split; [auto|].
    intros Hfresh. rewrite Hkept, Hkept1.
    + reflexivity.
    + intros storage sd. apply Hfresh. apply list_elem_of_here.
    + intros diff' storage sd Hdiff'. apply Hfresh. apply list_elem_of_further.
      exact Hdiff'.
Qed.

(** C10. In the accumulator that [from_data] returns, every storage diff
    object of the input has a pair under its address and its storage key:
    the inner map of the address was created at the latest for it.  When no
    later object writes the same key under the same address, that pair is
    the one of the object, each side being [None] when the hexadecimal
    string parses to 0 and the parsed value, which fits 256 bits,
    otherwise; when one does, the pair comes from a later object, of
    which the same holds. *)
Theorem from_data_zero_is_absent `{Helpers} stateDiffs final
    earlier_diffs diff later_diffs earlier_storage sd later_storage :
  from_data stateDiffs = OK final ->
  stateDiffs = earlier_diffs ++ diff :: later_diffs ->
  j_storage diff = Some (earlier_storage ++ sd :: later_storage) ->
  exists address key pre_int post_int inner entry,
    FixedBytes_fromhex 20 (strip0x (j_address diff)) = OK address /\
    FixedBytes_fromhex 32 (strip0x (j_storageKey sd)) = OK key /\
    int_base16 (strip0x (j_preValue sd)) = OK pre_int /\
    int_base16 (strip0x (j_postValue sd)) = OK post_int /\
    0 <= pre_int < 2 ^ 256 /\ 0 <= post_int < 2 ^ 256 /\
    _storage_tries final !! address = Some inner /\
    inner !! key = Some entry /\
    (not_rewritten address key later_storage later_diffs ->
     entry = (zero_is_absent pre_int, zero_is_absent post_int)).
Proof.
  unfold from_data. intros Hrun -> Hstorage.
  apply for_each_split in Hrun as (state_diff & s2 & _ & Hdiff & Hlater).
  pose proof Hdiff as Hstep. unfold from_data_diff in Hstep.
  apply bind_OK in Hstep as (address & Haddress & Hstep).
  apply bind_OK in Hstep as (pre_account & _ & Hstep).
  apply bind_OK in Hstep as (post_account & _ & Hstep).
  apply bind_OK in Hstep as (s3 & Hloop & Hs2). apply OK_inj in Hs2.
  rewrite Hstorage in Hloop.
  apply for_each_split in Hloop as (state_before & state_after & _ & Hsd & Hrest).
  apply from_data_storage_slot in Hsd
    as (key & pre_int & post_int & Hkey & Hpre & Hpost & Hr1 & Hr2 & Hslot).
  specialize (Hslot address key). rewrite decide_True in Hslot by (split; reflexivity).
  destruct (from_data_storage_loop_slot _ _ _ _ address key Hrest)
    as [Hfilled_rest Hkept_rest].
  destruct (from_data_diffs_slot _ _ _ address key Hlater)
    as [Hfilled_later Hkept_later].
  assert (Hs2_slot : storage_slot (_storage_tries s2) address key
                     = storage_slot (_storage_tries s3) address key)
    by (subst s2; reflexivity).
  assert (Hfilled : is_Some (storage_slot (_storage_tries final) address key)).
  { apply Hfilled_later. rewrite Hs2_slot. apply Hfilled_rest.
    rewrite Hslot. eexists; reflexivity. }
  destruct Hfilled as [entry Hentry].
  unfold storage_slot in Hentry.
  destruct (_storage_tries final !! address) as [inner|] eqn:Hinner; [|discriminate].
  exists address, key, pre_int, post_int, inner, entry.
  split; [exact Haddress|]. split; [exact Hkey|]. split; [exact Hpre|].
  split; [exact Hpost|]. split; [exact Hr1|]. split; [exact Hr2|].
  split; [exact Hinner|]. split; [exact Hentry|].
  intros [Hfresh_storage Hfresh_diffs].
  assert (Hfinal : storage_slot (_storage_tries final) address key
                   = Some (zero_is_absent pre_int, zero_is_absent post_int)).
  { rewrite Hkept_later by exact Hfresh_diffs.
    rewrite Hs2_slot, Hkept_rest by (intros _; exact Hfresh_storage).
    exact Hslot. }
  unfold storage_slot in Hfinal. rewrite Hinner, Hentry in Hfinal.
  congruence.
Qed.

Lemma from_data_zero_is_absent_witness :
  let final :=
    mkStateDiff
      {[ Scenario.address_A := (None, None) ]}
      {[ Scenario.address_A :=
           {[ Scenario.zeros 31 ++ [1] := (Some 5, None);
              Scenario.zeros 31 ++ [2] := (None, Some 255) ]} ]}
      ∅ ∅ ∅ in
  from_data (H := Reference.helpers) [Scenario.json_diff] = OK final /\
  not_rewritten (H := Reference.helpers)
    Scenario.address_A (Scenario.zeros 31 ++ [1]) [Scenario.json_set] [] /\
  exists address key pre_int post_int inner entry,
    Reference.FixedBytes_fromhex 20 (strip0x Scenario.json_address) = OK address /\
    Reference.FixedBytes_fromhex 32 (strip0x Scenario.json_key_1) = OK key /\
    Reference.int_base16 (strip0x "0x5") = OK pre_int /\
    Reference.int_base16 (strip0x "0x0") = OK post_int /\
    0 <= pre_int < 2 ^ 256 /\ 0 <= post_int < 2 ^ 256 /\
    _storage_tries final !! address = Some inner /\
    inner !! key = Some entry /\
    (not_rewritten (H := Reference.helpers) address key [Scenario.json_set] [] ->
     entry = (zero_is_absent pre_int, zero_is_absent post_int)).
Proof.
  intros final.
  assert (Hrun : from_data (H := Reference.helpers) [Scenario.json_diff] = OK final)
    by (vm_compute; reflexivity).
  split; [exact Hrun|]. split.
  - split.
    + intros sd Hsd. apply list_elem_of_singleton in Hsd. subst sd.
      vm_compute. discriminate.
    + intros d storage sd Hd. inversion Hd.
  - exact (from_data_zero_is_absent (H := Reference.helpers)
             [Scenario.json_diff] final
             [] Scenario.json_diff [] [] Scenario.json_cleared [Scenario.json_set]
             Hrun eq_refl eq_refl).
Defined.

(** * Further properties *)

(** ** Which calls reach the leaf handler *)

Ltac walk_index :=
  repeat match goal with
  | |- context [index ?l ?i] =>
      let Hi := fresh "Hi" in
      destruct (index l i) eqn:Hi; cbn [bind]; [|reflexivity]
  end.

Ltac walk_pack :=
  repeat match goal with
  | |- context [nibble_list_to_bytes ?x] =>
      let Hp := fresh "Hp" in
      destruct (nibble_list_to_bytes x) eqn:Hp; cbn [bind]; [|reflexivity]
  end.

Ltac walk_call h :=
  match goal with
  | |- context [bind (h ?p ?l ?r ?s)] =>
      destruct (h p l r s); cbn [bind]; [|reflexivity]
  end.

Ltac walk_check :=
  repeat match goal with
  | |- context [check_branch_node ?n] =>
      destruct (check_branch_node n); cbn [bind]; [|reflexivity]
  end.

(** Two handlers that agree on the calls with a leaf on some side give
    the same walk. *)
Lemma _compute_diff_handlers_agree `{Helpers} (h1 h2 : LeafHandler) :
  (forall path l r self,
     is_Some l \/ is_Some r -> h1 path l r self = h2 path l r self) ->
  forall depth left right path self,
    _compute_diff depth h1 left right path self
    = _compute_diff depth h2 left right path self.
Proof.
  intros Hagree. induction depth as [|depth IH]; intros left right path self;
    [reflexivity|].
  cbn [_compute_diff]. destruct (NodeRef_eqb left right); [reflexivity|].
  destruct (resolve left (_nodes self)) as [l_node|e]; [|reflexivity].
  destruct (resolve right (_nodes self)) as [r_node|e]; [|reflexivity].
  cbn [bind].
  destruct l_node as [[l|lks lsub|lsubs lv]|], r_node as [[r|rks rsub|rsubs rv]|];
    try reflexivity; try apply IH;
    try (walk_check; apply for_each_ext; intros i s; walk_index;
         repeat match goal with |- context [if ?b then _ else _] => destruct b end;
         apply IH).
  - (* Leaf, Leaf *)
    destruct (bytes_eqb (rest_of_key l) (rest_of_key r));
      [destruct (negb (bytes_eqb (value l) (value r))); [|reflexivity]|];
      walk_pack; rewrite Hagree by (left; eauto); [reflexivity|].
    walk_call h2. apply Hagree. right; eauto.
  - (* Leaf, Extension *)
    destruct (startswith (rest_of_key l) rks); [apply IH|].
    walk_pack. rewrite Hagree by (left; eauto).
    walk_call h2. apply IH.
  - (* Leaf, None *)
    walk_pack. apply Hagree. left; eauto.
  - (* Extension, Leaf *)
    destruct (startswith (rest_of_key r) lks); [apply IH|].
    walk_pack. rewrite Hagree by (right; eauto).
    walk_call h2. apply IH.
  - (* Extension, Extension *)
    repeat match goal with |- context [if ?b then _ else _] => destruct b end;
      try apply IH.
    rewrite IH. destruct (_compute_diff depth h2 (RExt lsub) RNone (path ++ lks) self);
      cbn [bind]; [apply IH | reflexivity].
  - (* Branch, Extension *)
    walk_check. f_equal. apply for_each_ext. intros i [s ks]. cbn [fst snd].
    walk_index. cbn [py_eq]. rewrite IH. reflexivity.
  - (* None, Leaf *)
    walk_pack. apply Hagree. right; eauto.
Qed.

(** Against an absent left side only creations matter to the walk, and
    against an absent right side only deletions. *)
Lemma _compute_diff_creations_agree `{Helpers} (h1 h2 : LeafHandler) :
  (forall path r self, h1 path None (Some r) self = h2 path None (Some r) self) ->
  forall depth right path self,
    _compute_diff depth h1 RNone right path self
    = _compute_diff depth h2 RNone right path self.
Proof.
  intros Hagree. induction depth as [|depth IH]; intros right path self;
    [reflexivity|].
  cbn [_compute_diff]. destruct (NodeRef_eqb RNone right); [reflexivity|].
  cbn [resolve bind].
  destruct (resolve right (_nodes self)) as [[[r|rks rsub|rsubs rv]|]|e];
    cbn [bind]; try reflexivity.
  - walk_pack. apply Hagree.
  - apply IH.
  - walk_check. apply for_each_ext. intros i s. walk_index. apply IH.
Qed.

Lemma _compute_diff_deletions_agree `{Helpers} (h1 h2 : LeafHandler) :
  (forall path l self, h1 path (Some l) None self = h2 path (Some l) None self) ->
  forall depth left path self,
    _compute_diff depth h1 left RNone path self
    = _compute_diff depth h2 left RNone path self.
Proof.
  intros Hagree. induction depth as [|depth IH]; intros left path self;
    [reflexivity|].
  cbn [_compute_diff]. destruct (NodeRef_eqb left RNone); [reflexivity|].
  destruct (resolve left (_nodes self)) as [[[l|lks lsub|lsubs lv]|]|e];
    cbn [resolve bind]; try reflexivity.
  - walk_pack. apply Hagree.
  - apply IH.
  - walk_check. apply for_each_ext. intros i s. walk_index. apply IH.
Qed.

(** X1. The walker never calls the leaf handler with [None] on both sides:
    putting [assert left is not None or right is not None] at the entry
    of the handler changes no walk, whatever the references, the store
    and the helpers. *)
Theorem handler_calls_carry_a_leaf `{Helpers} (h : LeafHandler)
    depth left right path self :
  _compute_diff depth (asserting_a_side h) left right path self
  = _compute_diff depth h left right path self.
Proof.
  apply _compute_diff_handlers_agree.
  intros p [l|] [r|] s [[x Hx]|[x Hx]]; try discriminate; reflexivity.
Qed.

(** X2. A walk whose left side is [None] reports creations only, each
    with the new leaf on the right, and a walk whose right side is [None]
    reports deletions only, each with the old leaf on the left: asserting
    so at the entry of the handler changes neither walk. *)
Theorem one_sided_walks_report_one_side `{Helpers} (h : LeafHandler)
    depth ref path self :
  _compute_diff depth (asserting_creation h) RNone ref path self
  = _compute_diff depth h RNone ref path self /\
  _compute_diff depth (asserting_deletion h) ref RNone path self
  = _compute_diff depth h ref RNone path self.
Proof.
  split.
  - apply _compute_diff_creations_agree. reflexivity.
  - apply _compute_diff_deletions_agree. reflexivity.
Qed.

(** ** A side with nothing: every leaf of the other side is reported *)

Lemma bind_ret {A : Type} (m : result A) : (a <- m ;; OK a) = m.
Proof. destruct m; reflexivity. Qed.

Section OneSided.
Context {H : Helpers}.
Variable store : gmap Bytes InternalNode.
Variable h : LeafHandler.
Hypothesis handler_keeps_nodes :
  forall path l r self self',
    h path l r self = OK self' -> _nodes self' = _nodes self.

(** The loop of [leaves] over the slots of a branch only appends. *)
Lemma leaves_loop_appends depth subs path xs :
  forall acc found,
    for_each xs (fun i found =>
      s <- index subs i ;;
      below <- leaves depth store (RExt s) (path ++ [i]) ;;
      OK (found ++ below)) acc = OK found ->
    exists rest, found = acc ++ rest.
Proof.
  induction xs as [|x xs IHxs]; intros acc found Hfound; cbn [for_each] in *.
  - apply OK_inj in Hfound. subst. exists []. symmetry. apply app_nil_r.
  - apply bind_OK in Hfound as (acc' & Hstep & Hfound).
    apply bind_OK in Hstep as (s & _ & Hstep).
    apply bind_OK in Hstep as (below & _ & Hstep). apply OK_inj in Hstep.
    subst acc'. destruct (IHxs _ _ Hfound) as (rest & ->).
    exists (below ++ rest). rewrite !app_assoc. reflexivity.
Qed.

(** The loop of the walker over the slots of a branch reports what the
    loop of [leaves] finds, given that each slot does. *)
Lemma branch_slots_reported depth subs path
    (walk_slot : Extended -> Bytes -> StateDiff -> result StateDiff)
    (report : Bytes * LeafNode -> StateDiff -> result StateDiff) :
  (forall s p self found,
     _nodes self = store -> leaves depth store (RExt s) p = OK found ->
     walk_slot s p self = for_each found report self) ->
  (forall s p self self',
     walk_slot s p self = OK self' -> _nodes self' = _nodes self) ->
  forall xs acc found self,
    _nodes self = store ->
    for_each xs (fun i found =>
      s <- index subs i ;;
      below <- leaves depth store (RExt s) (path ++ [i]) ;;
      OK (found ++ below)) acc = OK found ->
    exists rest, found = acc ++ rest /\
      for_each xs (fun i self =>
        s <- index subs i ;; walk_slot s (path ++ [i]) self) self
      = for_each rest report self.
Proof.
  intros Hslot Hkeeps.
  induction xs as [|x xs IHxs]; intros acc found self Hstore Hfound;
    cbn [for_each] in *.
  - apply OK_inj in Hfound. subst found. exists []. rewrite app_nil_r.
    split; reflexivity.
  - apply bind_OK in Hfound as (acc' & Hstep & Hfound).
    apply bind_OK in Hstep as (s & Hs & Hstep).
    apply bind_OK in Hstep as (below & Hbelow & Hstep).
    apply OK_inj in Hstep. subst acc'. rewrite Hs. cbn [bind].
    destruct (leaves_loop_appends _ _ _ _ _ _ Hfound) as (rest & ->).
    exists (below ++ rest). split; [rewrite app_assoc; reflexivity|].
    rewrite for_each_app, <- (Hslot _ _ _ _ Hstore Hbelow).
    destruct (walk_slot s (path ++ [x]) self) as [self1|e] eqn:Hwalk;
      cbn [bind]; [|reflexivity].
    assert (Hstore1 : _nodes self1 = store)
      by (rewrite <- Hstore; eapply Hkeeps; exact Hwalk).
    destruct (IHxs _ _ _ Hstore1 Hfound) as (rest' & Heq & Hrest).
    apply app_inv_head in Heq. subst rest'. exact Hrest.
Qed.

Lemma created_leaves_reported (depth : nat) :
  forall ref path self found,
    _nodes self = store ->
    leaves depth store ref path = OK found ->
    _compute_diff depth h RNone ref path self
    = for_each found (report_created h) self.
Proof.
  induction depth as [|depth IH]; intros ref path self found Hstore Hfound;
    [discriminate|].
  cbn [_compute_diff leaves] in *.
  destruct (NodeRef_eqb RNone ref) eqn:Heq.
  { apply NodeRef_eqb_eq in Heq. subst ref. cbn in Hfound.
    apply OK_inj in Hfound. subst found. reflexivity. }
  cbn [resolve bind]. rewrite Hstore.
  destruct (resolve ref store) as [[[l|ks sub|subs v]|]|e]; cbn [bind] in *;
    try discriminate.
  - apply bind_OK in Hfound as (full_path & Hp & Hfound). apply OK_inj in Hfound.
    subst found. rewrite Hp. cbn [bind for_each]. unfold report_created at 1.
    cbn [fst snd]. symmetry. apply bind_ret.
  - apply IH; assumption.
  - destruct (check_branch_node (BranchNode subs v)); cbn [bind] in *; [|discriminate].
    destruct (branch_slots_reported depth subs path
                (fun s p => _compute_diff depth h RNone (RExt s) p)
                (report_created h) (fun s p => IH (RExt s) p)
                (fun s p self self' =>
                   _compute_diff_nodes h handler_keeps_nodes depth _ _ p self self')
                range16 [] found self Hstore Hfound) as (rest & Hrest & Hwalk).
    cbn [app] in Hrest. subst rest. exact Hwalk.
  - apply OK_inj in Hfound. subst found. reflexivity.
Qed.

Lemma deleted_leaves_reported (depth : nat) :
  forall ref path self found,
    _nodes self = store ->
    leaves depth store ref path = OK found ->
    _compute_diff depth h ref RNone path self
    = for_each found (report_deleted h) self.
Proof.
  induction depth as [|depth IH]; intros ref path self found Hstore Hfound;
    [discriminate|].
  cbn [_compute_diff leaves] in *.
  destruct (NodeRef_eqb ref RNone) eqn:Heq.
  { apply NodeRef_eqb_eq in Heq. subst ref. cbn in Hfound.
    apply OK_inj in Hfound. subst found. reflexivity. }
  rewrite Hstore.
  destruct (resolve ref store) as [[[l|ks sub|subs v]|]|e]; cbn [resolve bind] in *;
    try discriminate.
  - apply bind_OK in Hfound as (full_path & Hp & Hfound). apply OK_inj in Hfound.
    subst found. rewrite Hp. cbn [bind for_each]. unfold report_deleted at 1.
    cbn [fst snd]. symmetry. apply bind_ret.
  - apply IH; assumption.
  - destruct (check_branch_node (BranchNode subs v)); cbn [bind] in *; [|discriminate].
    destruct (branch_slots_reported depth subs path
                (fun s p => _compute_diff depth h (RExt s) RNone p)
                (report_deleted h) (fun s p => IH (RExt s) p)
                (fun s p self self' =>
                   _compute_diff_nodes h handler_keeps_nodes depth _ _ p self self')
                range16 [] found self Hstore Hfound) as (rest & Hrest & Hwalk).
    cbn [app] in Hrest. subst rest. exact Hwalk.
  - apply OK_inj in Hfound. subst found. reflexivity.
Qed.
End OneSided.

(** X3. When the left side is [None], the walk calls the handler once for
    each leaf of the right trie, in the order of the keys, with [None] on
    the left and the leaf on the right, and does nothing else to the
    accumulator; when the right side is [None], the same with the sides
    exchanged.  The handler is any one that leaves the node store alone,
    [leaves] lists the trie to the same depth as the walk. *)
Theorem absent_side_reports_every_leaf `{Helpers} (h : LeafHandler)
    depth ref path self found :
  (forall path l r self self',
     h path l r self = OK self' -> _nodes self' = _nodes self) ->
  leaves depth (_nodes self) ref path = OK found ->
  _compute_diff depth h RNone ref path self
  = for_each found (report_created h) self /\
  _compute_diff depth h ref RNone path self
  = for_each found (report_deleted h) self.
Proof.
  intros Hkeeps Hfound. split.
  - eapply created_leaves_reported; [exact Hkeeps | reflexivity | exact Hfound].
  - eapply deleted_leaves_reported; [exact Hkeeps | reflexivity | exact Hfound].
Qed.

Lemma absent_side_reports_every_leaf_witness :
  let self := Scenario.accumulator Scenario.create_C in
  let h := _process_account_diff (H := Reference.helpers) 5 in
  let root := RExt (EBytes (Scenario.hash 7)) in
  let found := [(Scenario.key_A, Scenario.leaf_A); (Scenario.key_B, Scenario.leaf_B);
                (Scenario.key_C, Scenario.leaf_C)] in
  leaves (H := Reference.helpers) 5 (_nodes self) root [] = OK found /\
  _compute_diff (H := Reference.helpers) 5 h RNone root [] self
  = for_each found (report_created h) self /\
  _compute_diff (H := Reference.helpers) 5 h root RNone [] self
  = for_each found (report_deleted h) self.
Proof.
  intros self h root found.
  assert (Hfound : leaves (H := Reference.helpers) 5 (_nodes self) root [] = OK found)
    by (vm_compute; reflexivity).
  split; [exact Hfound|].
  apply (absent_side_reports_every_leaf (H := Reference.helpers) h 5 root [] self found).
  - intros p l r s s'. apply (_process_account_diff_nodes (H := Reference.helpers)).
  - exact Hfound.
Defined.

(** ** The leaf handlers *)

Lemma decode_account_side `{Helpers} (leaf : option LeafNode) (account : option Account) :
  decode_account leaf = OK account -> (is_Some account <-> is_Some leaf).
Proof.
  destruct leaf as [l|]; cbn [decode_account]; intros Hd.
  - apply bind_OK in Hd as (a & _ & Hd). apply OK_inj in Hd. subst.
    split; intros _; eexists; reflexivity.
  - apply OK_inj in Hd. subst. split; intros [x Hx]; discriminate.
Qed.

Lemma decode_slot_side `{Helpers} (leaf : option LeafNode) (slot : option Z) :
  decode_slot leaf = OK slot ->
  (is_Some slot <-> is_Some leaf) /\ (forall v, slot = Some v -> 0 <= v < 2 ^ 256).
Proof.
  destruct leaf as [l|]; cbn [decode_slot]; intros Hd.
  - apply bind_OK in Hd as (decoded & _ & Hd). apply bind_OK in Hd as (n & _ & Hd).
    apply bind_OK in Hd as (u & Hu & Hd). apply OK_inj in Hd. subst.
    apply U256_OK in Hu as [-> Hrange].
    split; [split; intros _; eexists; reflexivity|]. intros v [= <-]. exact Hrange.
  - apply OK_inj in Hd. subst.
    split; [split; intros [x Hx]; discriminate | discriminate].
Qed.

(** A storage leaf whose payload is the RLP of the empty list: the decoded
    list is empty, [int.from_bytes] of it is 0, and the slot is 0. *)
Lemma empty_list_payload_decodes_to_zero :
  Reference.rlp_decode [192] = OK (EList []) /\
  decode_slot (H := Reference.helpers) (Some (mkLeafNode [] [192])) = OK (Some 0).
Proof. split; vm_compute; reflexivity. Qed.

(** The three branches of the storage handler write the same entry. *)
Lemma _process_storage_diff_unified `{Helpers} address path l r self :
  _process_storage_diff address path l r self
  = (key <- getitem (_storage_key_preimages self) path ;;
     left_decoded <- decode_slot l ;;
     right_decoded <- decode_slot r ;;
     OK (set_storage_tries self
           (storage_setitem address key (left_decoded, right_decoded)
              (_storage_tries self)))).
Proof.
  unfold _process_storage_diff.
  destruct (getitem (_storage_key_preimages self) path) as [key|e]; [|reflexivity].
  cbn [bind]. destruct l as [l|], r as [r|]; cbn [decode_slot bind]; reflexivity.
Qed.

(** X4. A call of the storage handler that returns has found the storage key
    of the path among the preimages and has written, under the address it
    is bound to and under that key, the pair of decoded values: a side is
    [None] exactly when its leaf is, a value fits 256 bits.  The inner map
    of the address is the one already there or a new one; the maps of the
    other addresses and the account diffs are as before. *)
Theorem storage_handler_records `{Helpers} address path l r self self' :
  _process_storage_diff address path l r self = OK self' ->
  exists key left_decoded right_decoded,
    _storage_key_preimages self !! path = Some key /\
    decode_slot l = OK left_decoded /\
    decode_slot r = OK right_decoded /\
    (is_Some left_decoded <-> is_Some l) /\
    (is_Some right_decoded <-> is_Some r) /\
    _storage_tries self' !! address
    = Some (<[key := (left_decoded, right_decoded)]>
              (default ∅ (_storage_tries self !! address))) /\
    (forall other, other <> address ->
       _storage_tries self' !! other = _storage_tries self !! other) /\
    _main_trie self' = _main_trie self.
Proof.
  rewrite _process_storage_diff_unified. intros Hrun.
  apply bind_OK in Hrun as (key & Hkey & Hrun).
  apply bind_OK in Hrun as (ld & Hld & Hrun).
  apply bind_OK in Hrun as (rd & Hrd & Hrun). apply OK_inj in Hrun. subst self'.
  exists key, ld, rd.
  unfold getitem in Hkey.
  destruct (_storage_key_preimages self !! path) as [k|]; [|discriminate].
  apply OK_inj in Hkey. subst k.
  split; [reflexivity|]. split; [exact Hld|]. split; [exact Hrd|].
  split; [exact (proj1 (decode_slot_side _ _ Hld))|].
  split; [exact (proj1 (decode_slot_side _ _ Hrd))|].
  cbn [_storage_tries _main_trie set_storage_tries].
  split; [|split; [|reflexivity]].
  - rewrite lookup_storage_setitem, decide_True by reflexivity. reflexivity.
  - intros other Hother. rewrite lookup_storage_setitem, decide_False by congruence.
    reflexivity.
Qed.

Lemma storage_handler_records_witness :
  let self := Scenario.accumulator Scenario.create_C in
  let self' :=
    set_storage_tries self
      {[ Scenario.address_A := {[ Scenario.slot_number := (Some 5, Some 9) ]} ]} in
  _process_storage_diff (H := Reference.helpers) Scenario.address_A Scenario.key_slot
    (Some Scenario.slot_of_A) (Some Scenario.slot_of_C) self = OK self' /\
  exists key left_decoded right_decoded,
    _storage_key_preimages self !! Scenario.key_slot = Some key /\
    decode_slot (H := Reference.helpers) (Some Scenario.slot_of_A) = OK left_decoded /\
    decode_slot (H := Reference.helpers) (Some Scenario.slot_of_C) = OK right_decoded /\
    (is_Some left_decoded <-> is_Some (Some Scenario.slot_of_A)) /\
    (is_Some right_decoded <-> is_Some (Some Scenario.slot_of_C)) /\
    _storage_tries self' !! Scenario.address_A
    = Some (<[key := (left_decoded, right_decoded)]>
              (default ∅ (_storage_tries self !! Scenario.address_A))) /\
    (forall other, other <> Scenario.address_A ->
       _storage_tries self' !! other = _storage_tries self !! other) /\
    _main_trie self' = _main_trie self.
Proof.
  intros self self'.
  assert (Hrun : _process_storage_diff (H := Reference.helpers) Scenario.address_A
            Scenario.key_slot (Some Scenario.slot_of_A) (Some Scenario.slot_of_C) self
          = OK self') by (vm_compute; reflexivity).
  split; [exact Hrun|].
  exact (storage_handler_records (H := Reference.helpers) _ _ _ _ _ _ Hrun).
Defined.

(** What the storage handler bound to an address leaves as it was. *)
Lemma _process_storage_diff_frame `{Helpers} address path l r self self' :
  _process_storage_diff address path l r self = OK self' ->
  _main_trie self' = _main_trie self /\
  _address_preimages self' = _address_preimages self /\
  _storage_key_preimages self' = _storage_key_preimages self /\
  forall other, other <> address ->
    _storage_tries self' !! other = _storage_tries self !! other.
Proof.
  rewrite _process_storage_diff_unified. intros Hrun.
  apply bind_OK in Hrun as (key & _ & Hrun).
  apply bind_OK in Hrun as (ld & _ & Hrun).
  apply bind_OK in Hrun as (rd & _ & Hrun). apply OK_inj in Hrun. subst self'.
  cbn [_storage_tries _main_trie _address_preimages _storage_key_preimages
       set_storage_tries].
  repeat (split; [reflexivity|]).
  intros other Hother. rewrite lookup_storage_setitem, decide_False by congruence.
  reflexivity.
Qed.

(** X5. A call of the account handler that returns has found the address of
    the path among the preimages and has left, under that address, the
    pair of decoded accounts, a side being [None] exactly when its leaf
    is; the storage walk it launches changes nothing else in the account
    diffs and touches the storage diffs of no other address. *)
Theorem account_handler_records `{Helpers} depth path l r self self' :
  _process_account_diff depth path l r self = OK self' ->
  exists address left_account right_account,
    _address_preimages self !! path = Some address /\
    decode_account l = OK left_account /\
    decode_account r = OK right_account /\
    (is_Some left_account <-> is_Some l) /\
    (is_Some right_account <-> is_Some r) /\
    _main_trie self'
    = <[address := (left_account, right_account)]> (_main_trie self) /\
    (forall other, other <> address ->
       _storage_tries self' !! other = _storage_tries self !! other).
Proof.
  unfold _process_account_diff. intros Hrun.
  apply bind_OK in Hrun as (address & Haddress & Hrun).
  apply bind_OK in Hrun as (la & Hla & Hrun).
  apply bind_OK in Hrun as (ra & Hra & Hrun).
  exists address, la, ra.
  unfold getitem in Haddress.
  destruct (_address_preimages self !! path) as [a|]; [|discriminate].
  apply OK_inj in Haddress. subst a.
  split; [reflexivity|]. split; [exact Hla|]. split; [exact Hra|].
  split; [exact (decode_account_side _ _ Hla)|].
  split; [exact (decode_account_side _ _ Hra)|].
  apply (_compute_diff_preserves
           (fun s => _main_trie s = <[address := (la, ra)]> (_main_trie self) /\
                     forall other, other <> address ->
                       _storage_tries s !! other = _storage_tries self !! other))
    in Hrun; [exact Hrun | | split; reflexivity].
  intros p l' r' s s' [Hmain Hothers] Hcall.
  apply _process_storage_diff_frame in Hcall as (Hm & _ & _ & Ho).
  split; [congruence|]. intros other Hother. rewrite Ho by exact Hother.
  apply Hothers. exact Hother.
Qed.

Lemma account_handler_records_witness :
  let self := Scenario.accumulator Scenario.genesis in
  let self' :=
    mkStateDiff
      {[ Scenario.address_C := (None, Some Scenario.account_C) ]}
      {[ Scenario.address_C := {[ Scenario.slot_number := (None, Some 9) ]} ]}
      Scenario.genesis_store Scenario.addresses Scenario.slots in
  _process_account_diff (H := Reference.helpers) 2 Scenario.key_C
    None (Some Scenario.genesis_leaf) self = OK self' /\
  exists address left_account right_account,
    _address_preimages self !! Scenario.key_C = Some address /\
    decode_account (H := Reference.helpers) None = OK left_account /\
    decode_account (H := Reference.helpers) (Some Scenario.genesis_leaf)
    = OK right_account /\
    (is_Some left_account <-> is_Some (@None LeafNode)) /\
    (is_Some right_account <-> is_Some (Some Scenario.genesis_leaf)) /\
    _main_trie self'
    = <[address := (left_account, right_account)]> (_main_trie self) /\
    (forall other, other <> address ->
       _storage_tries self' !! other = _storage_tries self !! other).
Proof.
  intros self self'.
  assert (Hrun : _process_account_diff (H := Reference.helpers) 2 Scenario.key_C
            None (Some Scenario.genesis_leaf) self = OK self')
    by (vm_compute; reflexivity).
  split; [exact Hrun|].
  exact (account_handler_records (H := Reference.helpers) _ _ _ _ _ _ Hrun).
Defined.

(** X6. A path with no preimage stops either handler with [KeyError] before
    a leaf is decoded or anything is written. *)
Theorem missing_preimage_raises_KeyError `{Helpers} depth address path l r self :
  _address_preimages self !! path = None ->
  _storage_key_preimages self !! path = None ->
  _process_account_diff depth path l r self = Raise KeyError /\
  _process_storage_diff address path l r self = Raise KeyError.
Proof.
  intros Ha Hs. unfold _process_account_diff, _process_storage_diff, getitem.
  rewrite Ha, Hs. split; reflexivity.
Qed.

Lemma missing_preimage_raises_KeyError_witness :
  let self := Scenario.accumulator Scenario.genesis in
  let undecodable := Some (mkLeafNode [] [255; 255]) in
  let unknown := Scenario.hash 1 in
  _process_account_diff (H := Reference.helpers) 2 unknown undecodable None self
  = Raise KeyError /\
  _process_storage_diff (H := Reference.helpers) Scenario.address_A unknown
    undecodable None self = Raise KeyError.
Proof.
  intros self undecodable unknown.
  apply (missing_preimage_raises_KeyError (H := Reference.helpers));
    vm_compute; reflexivity.
Defined.

(** ** What [from_tries] returns *)

Lemma _process_account_diff_frame `{Helpers} depth path l r self self' :
  _process_account_diff depth path l r self = OK self' ->
  _address_preimages self' = _address_preimages self /\
  _storage_key_preimages self' = _storage_key_preimages self.
Proof.
  unfold _process_account_diff. intros Hrun. repeat walk_step.
  apply (_compute_diff_preserves
           (fun s => _address_preimages s = _address_preimages self /\
                     _storage_key_preimages s = _storage_key_preimages self))
    in Hrun; [exact Hrun | | split; reflexivity].
  intros p l' r' s s' [Hpa Hps] Hcall.
  apply _process_storage_diff_frame in Hcall as (_ & Hpa' & Hps' & _).
  split; congruence.
Qed.

Section Entries.
Context {H : Helpers}.
Variable tries : EthereumTrieTransitionDB.
Variable P : Bytes -> option Account * option Account -> Prop.
Variable Q : Bytes -> Bytes -> option Z * option Z -> Prop.

(** What the account handler can write, and what the storage handler can. *)
Hypothesis account_writes :
  forall path address l r left_account right_account,
    is_Some l \/ is_Some r ->
    address_preimages tries !! path = Some address ->
    decode_account l = OK left_account ->
    decode_account r = OK right_account ->
    P address (left_account, right_account).
Hypothesis storage_writes :
  forall path address key l r left_decoded right_decoded,
    is_Some l \/ is_Some r ->
    storage_key_preimages tries !! path = Some key ->
    decode_slot l = OK left_decoded ->
    decode_slot r = OK right_decoded ->
    Q address key (left_decoded, right_decoded).

Lemma storage_handler_keeps_entries address path l r self self' :
  entries_invariant tries P Q self ->
  asserting_a_side (_process_storage_diff address) path l r self = OK self' ->
  entries_invariant tries P Q self'.
Proof.
  intros (Ha & Hs & Hacc & Hsto) Hcall.
  assert (Hside : is_Some l \/ is_Some r).
  { destruct l, r; try discriminate Hcall; eauto. }
  assert (Hrun : _process_storage_diff address path l r self = OK self')
    by (destruct l, r; first [exact Hcall | discriminate Hcall]).
  clear Hcall.
  pose proof (_process_storage_diff_frame _ _ _ _ _ _ Hrun) as (Hm & Ha' & Hs' & Ho).
  rewrite _process_storage_diff_unified in Hrun.
  apply bind_OK in Hrun as (key & Hkey & Hrun).
  apply bind_OK in Hrun as (ld & Hld & Hrun).
  apply bind_OK in Hrun as (rd & Hrd & Hrun). apply OK_inj in Hrun.
  unfold getitem in Hkey.
  destruct (_storage_key_preimages self !! path) as [k|] eqn:Hk; [|discriminate].
  apply OK_inj in Hkey. subst k. rewrite Hs in Hk.
  split; [congruence|]. split; [congruence|]. split.
  - intros a e He. rewrite Hm in He. eapply Hacc; exact He.
  - intros a inner k e Hinner He. subst self'.
    cbn [_storage_tries set_storage_tries] in Hinner.
    rewrite lookup_storage_setitem in Hinner. case_decide as Heq.
    + apply (inj Some) in Hinner. subst inner a.
      rewrite lookup_insert in He. case_decide as Hkeq.
      * apply (inj Some) in He. subst e k. eapply storage_writes; eassumption.
      * destruct (_storage_tries self !! address) as [old|] eqn:Hold;
          cbn [default] in He; [eapply Hsto; eassumption|].
        rewrite lookup_empty in He. discriminate.
    + eapply Hsto; eassumption.
Qed.

Lemma account_handler_keeps_entries depth path l r self self' :
  entries_invariant tries P Q self ->
  asserting_a_side (_process_account_diff depth) path l r self = OK self' ->
  entries_invariant tries P Q self'.
Proof.
  intros (Ha & Hs & Hacc & Hsto) Hcall.
  assert (Hside : is_Some l \/ is_Some r).
  { destruct l, r; try discriminate Hcall; eauto. }
  assert (Hrun : _process_account_diff depth path l r self = OK self')
    by (destruct l, r; first [exact Hcall | discriminate Hcall]).
  clear Hcall. unfold _process_account_diff in Hrun.
  apply bind_OK in Hrun as (address & Haddress & Hrun).
  apply bind_OK in Hrun as (la & Hla & Hrun).
  apply bind_OK in Hrun as (ra & Hra & Hrun).
  unfold getitem in Haddress.
  destruct (_address_preimages self !! path) as [a|] eqn:Hpre; [|discriminate].
  apply OK_inj in Haddress. subst a. rewrite Ha in Hpre.
  rewrite <- (_compute_diff_handlers_agree
                (asserting_a_side (_process_storage_diff address))
                (_process_storage_diff address)) in Hrun.
  2:{ intros p [x|] [y|] s [[z Hz]|[z Hz]]; try discriminate; reflexivity. }
  eapply (_compute_diff_preserves (entries_invariant tries P Q)) in Hrun; [exact Hrun| |].
  - intros; eapply storage_handler_keeps_entries; eassumption.
  - split; [exact Ha|]. split; [exact Hs|]. split; [|exact Hsto].
    intros a e He. cbn [_main_trie set_main_trie] in He.
    rewrite lookup_insert in He. case_decide as Heq.
    + apply (inj Some) in He. subst e a. eapply account_writes; eassumption.
    + eapply Hacc; exact He.
Qed.

(** Every entry of the accumulator returned by [from_tries] was written by
    a handler call that carried a leaf. *)
Lemma from_tries_entries depth diff :
  from_tries depth tries = OK diff ->
  account_entries P diff /\ storage_entries Q diff.
Proof.
  unfold from_tries. intros Hrun.
  rewrite <- (_compute_diff_handlers_agree
                (asserting_a_side (_process_account_diff depth))
                (_process_account_diff depth)) in Hrun.
  2:{ intros p [x|] [y|] s [[z Hz]|[z Hz]]; try discriminate; reflexivity. }
  eapply (_compute_diff_preserves (entries_invariant tries P Q)) in Hrun.
  - exact (proj2 (proj2 Hrun)).
  - intros; eapply account_handler_keeps_entries; eassumption.
  - split; [reflexivity|]. split; [reflexivity|]. split.
    + intros a e He. cbn [_main_trie] in He. rewrite lookup_empty in He. discriminate.
    + intros a inner k e He. cbn [_storage_tries] in He.
      rewrite lookup_empty in He. discriminate.
Qed.
End Entries.

(** X7. No entry of the accumulator returned by [from_tries] is
    [(None, None)]: every account pair and every storage pair has a side
    that is present. *)
Theorem from_tries_records_no_empty_pair `{Helpers} depth tries diff :
  from_tries depth tries = OK diff ->
  account_entries (fun _ entry => is_Some entry.1 \/ is_Some entry.2) diff /\
  storage_entries (fun _ _ entry => is_Some entry.1 \/ is_Some entry.2) diff.
Proof.
  apply from_tries_entries.
  - intros path address l r la ra Hside _ Hla Hra. cbn [fst snd].
    apply decode_account_side in Hla, Hra. tauto.
  - intros path address key l r ld rd Hside _ Hld Hrd. cbn [fst snd].
    apply decode_slot_side in Hld as [Hld _], Hrd as [Hrd _]. tauto.
Qed.

(** X8. [from_tries] reports no address and no storage key of its own
    making: every address of the account diffs is the preimage of some
    path in [address_preimages], every key of the storage diffs the
    preimage of some path in [storage_key_preimages]. *)
Theorem from_tries_reports_preimages `{Helpers} depth tries diff :
  from_tries depth tries = OK diff ->
  account_entries
    (fun address _ => exists path, address_preimages tries !! path = Some address)
    diff /\
  storage_entries
    (fun _ key _ => exists path, storage_key_preimages tries !! path = Some key)
    diff.
Proof.
  apply from_tries_entries.
  - intros path address l r la ra _ Hpre _ _. exists path. exact Hpre.
  - intros path address key l r ld rd _ Hpre _ _. exists path. exact Hpre.
Qed.

(** X9. Every storage value in the accumulator returned by [from_tries]
    fits 256 bits. *)
Theorem from_tries_storage_values_fit_U256 `{Helpers} depth tries diff :
  from_tries depth tries = OK diff ->
  storage_entries
    (fun _ _ entry =>
       (forall v, entry.1 = Some v -> 0 <= v < 2 ^ 256) /\
       (forall v, entry.2 = Some v -> 0 <= v < 2 ^ 256))
    diff.
Proof.
  intros Hrun.
  refine (proj2 (from_tries_entries tries (fun _ _ => True) _ _ _ depth diff Hrun)).
  - intros; exact I.
  - intros path address key l r ld rd _ _ Hld Hrd. cbn [fst snd].
    apply decode_slot_side in Hld as [_ Hld], Hrd as [_ Hrd]. split; assumption.
Qed.

(** X10. [from_tries] returns the node store and the two preimage maps it
    was given: no walk, whatever the shape of the tries, writes to them. *)
Theorem from_tries_keeps_its_inputs `{Helpers} depth tries diff :
  from_tries depth tries = OK diff ->
  _nodes diff = nodes tries /\
  _address_preimages diff = address_preimages tries /\
  _storage_key_preimages diff = storage_key_preimages tries.
Proof.
  unfold from_tries. intros Hrun.
  apply (_compute_diff_preserves
           (fun s => _nodes s = nodes tries /\
                     _address_preimages s = address_preimages tries /\
                     _storage_key_preimages s = storage_key_preimages tries))
    in Hrun; [exact Hrun | | repeat split].
  intros p l r s s' (Hn & Ha & Hs) Hcall.
  pose proof (_process_account_diff_nodes _ _ _ _ _ _ Hcall) as Hn'.
  apply _process_account_diff_frame in Hcall as (Ha' & Hs').
  repeat split; congruence.
Qed.

Lemma from_tries_genesis :
  from_tries (H := Reference.helpers) 3 Scenario.genesis
  = OK (mkStateDiff
          {[ Scenario.address_C := (None, Some Scenario.account_C) ]}
          {[ Scenario.address_C := {[ Scenario.slot_number := (None, Some 9) ]} ]}
          Scenario.genesis_store Scenario.addresses Scenario.slots).
Proof. vm_compute. reflexivity. Qed.

Lemma from_tries_records_no_empty_pair_witness :
  let diff :=
    mkStateDiff
      {[ Scenario.address_C := (None, Some Scenario.account_C) ]}
      {[ Scenario.address_C := {[ Scenario.slot_number := (None, Some 9) ]} ]}
      Scenario.genesis_store Scenario.addresses Scenario.slots in
  from_tries (H := Reference.helpers) 3 Scenario.genesis = OK diff /\
  account_entries (fun _ entry => is_Some entry.1 \/ is_Some entry.2) diff /\
  storage_entries (fun _ _ entry => is_Some entry.1 \/ is_Some entry.2) diff.
Proof.
  split; [exact from_tries_genesis|].
  exact (from_tries_records_no_empty_pair (H := Reference.helpers)
           3 Scenario.genesis _ from_tries_genesis).
Defined.

Lemma from_tries_reports_preimages_witness :
  let diff :=
    mkStateDiff
      {[ Scenario.address_C := (None, Some Scenario.account_C) ]}
      {[ Scenario.address_C := {[ Scenario.slot_number := (None, Some 9) ]} ]}
      Scenario.genesis_store Scenario.addresses Scenario.slots in
  from_tries (H := Reference.helpers) 3 Scenario.genesis = OK diff /\
  account_entries
    (fun address _ => exists path, Scenario.addresses !! path = Some address) diff /\
  storage_entries
    (fun _ key _ => exists path, Scenario.slots !! path = Some key) diff.
Proof.
  split; [exact from_tries_genesis|].
  exact (from_tries_reports_preimages (H := Reference.helpers)
           3 Scenario.genesis _ from_tries_genesis).
Defined.

Lemma from_tries_storage_values_fit_U256_witness :
  let diff :=
    mkStateDiff
      {[ Scenario.address_C := (None, Some Scenario.account_C) ]}
      {[ Scenario.address_C := {[ Scenario.slot_number := (None, Some 9) ]} ]}
      Scenario.genesis_store Scenario.addresses Scenario.slots in
  from_tries (H := Reference.helpers) 3 Scenario.genesis = OK diff /\
  storage_entries
    (fun _ _ entry =>
       (forall v, entry.1 = Some v -> 0 <= v < 2 ^ 256) /\
       (forall v, entry.2 = Some v -> 0 <= v < 2 ^ 256))
    diff.
Proof.
  split; [exact from_tries_genesis|].
  exact (from_tries_storage_values_fit_U256 (H := Reference.helpers)
           3 Scenario.genesis _ from_tries_genesis).
Defined.

Lemma from_tries_keeps_its_inputs_witness :
  let diff :=
    mkStateDiff
      {[ Scenario.address_C := (None, Some Scenario.account_C) ]}
      {[ Scenario.address_C := {[ Scenario.slot_number := (None, Some 9) ]} ]}
      Scenario.genesis_store Scenario.addresses Scenario.slots in
  from_tries (H := Reference.helpers) 3 Scenario.genesis = OK diff /\
  _nodes diff = nodes Scenario.genesis /\
  _address_preimages diff = address_preimages Scenario.genesis /\
  _storage_key_preimages diff = storage_key_preimages Scenario.genesis.
Proof.
  split; [exact from_tries_genesis|].
  exact (from_tries_keeps_its_inputs (H := Reference.helpers)
           3 Scenario.genesis _ from_tries_genesis).
Defined.

(** ** What [from_data] returns *)

Lemma from_data_storage_OK `{Helpers} address sd s s' :
  from_data_storage address sd s = OK s' ->
  exists key pre_int post_int,
    0 <= pre_int < 2 ^ 256 /\ 0 <= post_int < 2 ^ 256 /\
    s' = set_storage_tries s
           (storage_setitem address key
              (zero_is_absent pre_int, zero_is_absent post_int) (_storage_tries s)).
Proof.
  unfold from_data_storage. intros Hrun.
  apply bind_OK in Hrun as (key & _ & Hrun).
  apply bind_OK in Hrun as (pre_int & _ & Hrun).
  apply bind_OK in Hrun as (post_int & _ & Hrun).
  apply bind_OK in Hrun as (pre & Hpre & Hrun).
  apply bind_OK in Hrun as (post & Hpost & Hrun). apply OK_inj in Hrun.
  apply zero_is_absent_parsed in Hpre as [-> Hpre].
  apply zero_is_absent_parsed in Hpost as [-> Hpost].
  exists key, pre_int, post_int. repeat split; try lia. symmetry. exact Hrun.
Qed.

Lemma from_data_diff_OK `{Helpers} diff s s' :
  from_data_diff diff s = OK s' ->
  exists address pre_account post_account s1,
    FixedBytes_fromhex 20 (strip0x (j_address diff)) = OK address /\
    parse_optional_account (j_preAccount diff) = OK pre_account /\
    parse_optional_account (j_postAccount diff) = OK post_account /\
    match j_storage diff with
    | Some storage => for_each storage (from_data_storage address) s
    | None => OK s
    end = OK s1 /\
    s' = set_main_trie s1 (<[address := (pre_account, post_account)]> (_main_trie s1)).
Proof.
  unfold from_data_diff. intros Hrun.
  apply bind_OK in Hrun as (address & Haddress & Hrun).
  apply bind_OK in Hrun as (pre & Hpre & Hrun).
  apply bind_OK in Hrun as (post & Hpost & Hrun).
  apply bind_OK in Hrun as (s1 & Hloop & Hrun). apply OK_inj in Hrun.
  exists address, pre, post, s1. repeat (split; [assumption|]). symmetry. exact Hrun.
Qed.

(** The storage loop of one diff object writes under its address only. *)
Lemma from_data_storage_loop `{Helpers} address storage :
  forall s s',
    for_each storage (from_data_storage address) s = OK s' ->
    _main_trie s' = _main_trie s /\
    _nodes s' = _nodes s /\
    _address_preimages s' = _address_preimages s /\
    _storage_key_preimages s' = _storage_key_preimages s /\
    dom (_storage_tries s') ⊆ {[address]} ∪ dom (_storage_tries s).
Proof.
  induction storage as [|sd storage IH]; intros s s' Hrun; cbn [for_each] in Hrun.
  - apply OK_inj in Hrun. subst s'. repeat (split; [reflexivity|]).
    apply union_subseteq_r.
  - apply bind_OK in Hrun as (s1 & Hstep & Hrun).
    apply from_data_storage_OK in Hstep as (key & pre & post & _ & _ & ->).
    apply IH in Hrun as (Hm & Hn & Ha & Hs & Hdom).
    cbn [_main_trie _nodes _address_preimages _storage_key_preimages
         _storage_tries set_storage_tries] in *.
    repeat (split; [assumption|]).
    rewrite dom_storage_setitem in Hdom.
    intros a Ha'. apply Hdom in Ha'. rewrite !elem_of_union in Ha'.
    rewrite elem_of_union. tauto.
Qed.

Lemma from_data_diff_keeps `{Helpers} diff s s' :
  from_data_diff diff s = OK s' ->
  (storage_nested s -> storage_nested s') /\
  dom (_main_trie s) ⊆ dom (_main_trie s') /\
  _nodes s' = _nodes s /\
  _address_preimages s' = _address_preimages s /\
  _storage_key_preimages s' = _storage_key_preimages s /\
  exists address,
    FixedBytes_fromhex 20 (strip0x (j_address diff)) = OK address /\
    address ∈ dom (_main_trie s').
Proof.
  intros Hrun.
  apply from_data_diff_OK in Hrun
    as (address & pre & post & s1 & Haddress & _ & _ & Hloop & ->).
  assert (Hs1 : _main_trie s1 = _main_trie s /\
                _nodes s1 = _nodes s /\
                _address_preimages s1 = _address_preimages s /\
                _storage_key_preimages s1 = _storage_key_preimages s /\
                dom (_storage_tries s1) ⊆ {[address]} ∪ dom (_storage_tries s)).
  { destruct (j_storage diff) as [storage|].
    - eapply from_data_storage_loop. exact Hloop.
    - apply OK_inj in Hloop. subst s1. repeat (split; [reflexivity|]).
      apply union_subseteq_r. }
  destruct Hs1 as (Hm & Hn & Ha & Hs & Hdom).
  unfold storage_nested.
  cbn [_main_trie _nodes _address_preimages _storage_key_preimages
       _storage_tries set_main_trie].
  rewrite dom_insert_L, Hm.
  split; [|split; [|split; [|split; [|split]]]]; try assumption.
  - intros Hnest a Ha'. apply Hdom in Ha'. rewrite elem_of_union in *.
    destruct Ha' as [Ha'|Ha']; [left; exact Ha' | right; apply Hnest; exact Ha'].
  - apply union_subseteq_r.
  - exists address. split; [exact Haddress|].
    apply elem_of_union_l, elem_of_singleton. reflexivity.
Qed.

Lemma from_data_loop_keeps `{Helpers} stateDiffs :
  forall s s',
    for_each stateDiffs from_data_diff s = OK s' ->
    (storage_nested s -> storage_nested s') /\
    dom (_main_trie s) ⊆ dom (_main_trie s') /\
    _nodes s' = _nodes s /\
    _address_preimages s' = _address_preimages s /\
    _storage_key_preimages s' = _storage_key_preimages s.
Proof.
  induction stateDiffs as [|diff stateDiffs IH]; intros s s' Hrun;
    cbn [for_each] in Hrun.
  - apply OK_inj in Hrun. subst s'. repeat split; auto.
  - apply bind_OK in Hrun as (s1 & Hstep & Hrun).
    apply from_data_diff_keeps in Hstep as (Hn1 & Hd1 & Hno1 & Ha1 & Hs1 & _).
    apply IH in Hrun as (Hn2 & Hd2 & Hno2 & Ha2 & Hs2).
    repeat split; try congruence; [tauto|].
    intros a Ha'. apply Hd2, Hd1. exact Ha'.
Qed.

(** X11. The accumulator returned by [from_data] holds no node and no
    preimage, and every address with storage diffs in it has an account
    pair: the pair of a diff object is recorded after its storage. *)
Theorem from_data_storage_nested `{Helpers} stateDiffs final :
  from_data stateDiffs = OK final ->
  storage_nested final /\
  _nodes final = ∅ /\ _address_preimages final = ∅ /\
  _storage_key_preimages final = ∅.
Proof.
  unfold from_data. intros Hrun.
  apply from_data_loop_keeps in Hrun as (Hnest & _ & Hn & Ha & Hs).
  repeat split; try assumption.
  apply Hnest. unfold storage_nested. cbn [_storage_tries _main_trie].
  rewrite !dom_empty_L. reflexivity.
Qed.

(** X12. In a run of [from_data] that returns, the address of every diff
    object of the input parses to 20 bytes and has an entry in the account
    diffs, whether or not the object carries an account or storage. *)
Theorem from_data_records_every_address `{Helpers} stateDiffs final
    earlier diff later :
  from_data stateDiffs = OK final ->
  stateDiffs = earlier ++ diff :: later ->
  exists address,
    FixedBytes_fromhex 20 (strip0x (j_address diff)) = OK address /\
    address ∈ dom (_main_trie final).
Proof.
  unfold from_data. intros Hrun ->.
  apply for_each_split in Hrun as (s1 & s2 & _ & Hstep & Hlater).
  apply from_data_diff_keeps in Hstep as (_ & _ & _ & _ & _ & address & Hparse & Hin).
  apply from_data_loop_keeps in Hlater as (_ & Hdom & _).
  exists address. split; [exact Hparse | apply Hdom; exact Hin].
Qed.

Lemma zero_is_absent_Some (n v : Z) :
  0 <= n < 2 ^ 256 -> zero_is_absent n = Some v -> nonzero_U256 v.
Proof.
  unfold zero_is_absent, nonzero_U256. intros Hrange.
  destruct (n =? 0) eqn:Hz; [discriminate|]. intros [= <-]. lia.
Qed.

Lemma Uint_OK (n u : Z) : Uint n = OK u -> u = n /\ 0 <= n.
Proof.
  unfold Uint. destruct (0 <=? n) eqn:Hn; [|discriminate].
  intros Hu. apply OK_inj in Hu. split; [congruence | lia].
Qed.

Lemma parse_optional_account_OK `{Helpers} (json : option AccountJson)
    (account : option Account) :
  parse_optional_account json = OK account ->
  (is_Some account <-> is_Some json) /\
  forall a, account = Some a -> parsed_account a.
Proof.
  destruct json as [j|]; cbn [parse_optional_account]; intros Hp.
  - apply bind_OK in Hp as (acc & Hacc & Hp). apply OK_inj in Hp. subst account.
    split; [split; intros _; eexists; reflexivity|]. intros a [= <-].
    unfold parse_account in Hacc.
    apply bind_OK in Hacc as (bi & _ & Hacc). apply bind_OK in Hacc as (b & Hb & Hacc).
    apply bind_OK in Hacc as (ni & _ & Hacc). apply bind_OK in Hacc as (n & Hn & Hacc).
    apply bind_OK in Hacc as (ch & _ & Hacc). apply bind_OK in Hacc as (sh & _ & Hacc).
    apply OK_inj in Hacc. subst acc. apply U256_OK in Hb as [-> Hb].
    apply Uint_OK in Hn as [-> Hn]. unfold parsed_account. cbn. auto.
  - apply OK_inj in Hp. subst account.
    split; [split; intros [x Hx]; discriminate | discriminate].
Qed.

Lemma from_data_storage_loop_entries `{Helpers} address storage :
  forall s s',
    for_each storage (from_data_storage address) s = OK s' ->
    storage_entries (fun _ _ => each_side nonzero_U256) s ->
    storage_entries (fun _ _ => each_side nonzero_U256) s'.
Proof.
  induction storage as [|sd storage IH]; intros s s' Hrun Hs; cbn [for_each] in Hrun.
  - apply OK_inj in Hrun. subst s'. exact Hs.
  - apply bind_OK in Hrun as (s1 & Hstep & Hrun).
    apply (IH _ _ Hrun). clear Hrun IH.
    apply from_data_storage_OK in Hstep as (key & pre & post & Hpre & Hpost & ->).
    intros a inner k e Hinner He. cbn [_storage_tries set_storage_tries] in Hinner.
    rewrite lookup_storage_setitem in Hinner. case_decide as Heq.
    + apply (inj Some) in Hinner. subst inner a.
      rewrite lookup_insert in He. case_decide as Hkeq.
      * apply (inj Some) in He. subst e. split; cbn [fst snd]; intros v Hv;
          [apply (zero_is_absent_Some pre) | apply (zero_is_absent_Some post)];
          assumption.
      * destruct (_storage_tries s !! address) as [old|] eqn:Hold;
          cbn [default] in He; [eapply Hs; eassumption|].
        rewrite lookup_empty in He. discriminate.
    + eapply Hs; eassumption.
Qed.

Lemma from_data_loop_entries `{Helpers} stateDiffs :
  forall s s',
    for_each stateDiffs from_data_diff s = OK s' ->
    account_entries (fun _ => each_side parsed_account) s /\
    storage_entries (fun _ _ => each_side nonzero_U256) s ->
    account_entries (fun _ => each_side parsed_account) s' /\
    storage_entries (fun _ _ => each_side nonzero_U256) s'.
Proof.
  induction stateDiffs as [|diff stateDiffs IH]; intros s s' Hrun Hs;
    cbn [for_each] in Hrun.
  - apply OK_inj in Hrun. subst s'. exact Hs.
  - apply bind_OK in Hrun as (s1 & Hstep & Hrun).
    apply (IH _ _ Hrun). clear Hrun IH. destruct Hs as [Hacc Hsto].
    apply from_data_diff_OK in Hstep
      as (address & pre & post & s0 & _ & Hpre & Hpost & Hloop & ->).
    assert (Hs0 : _main_trie s0 = _main_trie s /\
                  storage_entries (fun _ _ => each_side nonzero_U256) s0).
    { destruct (j_storage diff) as [storage|].
      - split; [exact (proj1 (from_data_storage_loop _ _ _ _ Hloop))|].
        eapply from_data_storage_loop_entries; eassumption.
      - apply OK_inj in Hloop. subst s0. split; [reflexivity | exact Hsto]. }
    destruct Hs0 as [Hm Hsto0]. split; [|exact Hsto0].
    intros a e He. cbn [_main_trie set_main_trie] in He.
    rewrite lookup_insert in He. case_decide as Heq.
    + apply (inj Some) in He. subst e.
      apply parse_optional_account_OK in Hpre as [_ Hpre], Hpost as [_ Hpost].
      split; assumption.
    + rewrite Hm in He. eapply Hacc; exact He.
Qed.

(** X13. In the accumulator returned by [from_data], no storage value is
    zero and every one fits 256 bits; every account has no code, a
    non-negative nonce and a balance that fits 256 bits. *)
Theorem from_data_entries_are_normalised `{Helpers} stateDiffs final :
  from_data stateDiffs = OK final ->
  account_entries (fun _ => each_side parsed_account) final /\
  storage_entries (fun _ _ => each_side nonzero_U256) final.
Proof.
  unfold from_data. intros Hrun.
  apply (from_data_loop_entries _ _ _ Hrun). split.
  - intros a e He. cbn [_main_trie] in He. rewrite lookup_empty in He. discriminate.
  - intros a inner k e He. cbn [_storage_tries] in He.
    rewrite lookup_empty in He. discriminate.
Qed.

(** X14. The account pair of a diff object mirrors its JSON keys: a side
    is present exactly when ["preAccount"], respectively ["postAccount"],
    is; for the last object of the input this pair is the one the
    accumulator holds under its address, [(None, None)] when the object
    carries neither key. *)
Theorem from_data_last_account_pair `{Helpers} earlier diff final :
  from_data (earlier ++ [diff]) = OK final ->
  exists address pre_account post_account,
    FixedBytes_fromhex 20 (strip0x (j_address diff)) = OK address /\
    parse_optional_account (j_preAccount diff) = OK pre_account /\
    parse_optional_account (j_postAccount diff) = OK post_account /\
    (is_Some pre_account <-> is_Some (j_preAccount diff)) /\
    (is_Some post_account <-> is_Some (j_postAccount diff)) /\
    _main_trie final !! address = Some (pre_account, post_account).
Proof.
  unfold from_data. intros Hrun.
  apply for_each_split in Hrun as (s1 & s2 & _ & Hstep & Hlater).
  cbn [for_each] in Hlater. apply OK_inj in Hlater. subst s2.
  apply from_data_diff_OK in Hstep
    as (address & pre & post & s0 & Haddress & Hpre & Hpost & _ & ->).
  exists address, pre, post. repeat (split; [assumption|]).
  split; [exact (proj1 (parse_optional_account_OK _ _ Hpre))|].
  split; [exact (proj1 (parse_optional_account_OK _ _ Hpost))|].
  cbn [_main_trie set_main_trie]. apply lookup_insert_eq.
Qed.

Lemma from_data_transfer :
  from_data (H := Reference.helpers) [Scenario.json_diff; JsonScenario.transfer]
  = OK JsonScenario.parsed.
Proof. vm_compute. reflexivity. Qed.

Lemma from_data_storage_nested_witness :
  from_data (H := Reference.helpers) [Scenario.json_diff; JsonScenario.transfer]
  = OK JsonScenario.parsed /\
  storage_nested JsonScenario.parsed /\
  _nodes JsonScenario.parsed = ∅ /\ _address_preimages JsonScenario.parsed = ∅ /\
  _storage_key_preimages JsonScenario.parsed = ∅.
Proof.
  split; [exact from_data_transfer|].
  exact (from_data_storage_nested (H := Reference.helpers) _ _ from_data_transfer).
Defined.

Lemma from_data_records_every_address_witness :
  from_data (H := Reference.helpers) [Scenario.json_diff; JsonScenario.transfer]
  = OK JsonScenario.parsed /\
  exists address,
    Reference.FixedBytes_fromhex 20 (strip0x (j_address Scenario.json_diff))
    = OK address /\
    address ∈ dom (_main_trie JsonScenario.parsed).
Proof.
  split; [exact from_data_transfer|].
  exact (from_data_records_every_address (H := Reference.helpers) _ _
           [] Scenario.json_diff [JsonScenario.transfer] from_data_transfer eq_refl).
Defined.

Lemma from_data_entries_are_normalised_witness :
  from_data (H := Reference.helpers) [Scenario.json_diff; JsonScenario.transfer]
  = OK JsonScenario.parsed /\
  account_entries (fun _ => each_side parsed_account) JsonScenario.parsed /\
  storage_entries (fun _ _ => each_side nonzero_U256) JsonScenario.parsed.
Proof.
  split; [exact from_data_transfer|].
  exact (from_data_entries_are_normalised (H := Reference.helpers) _ _
           from_data_transfer).
Defined.

Lemma from_data_last_account_pair_witness :
  from_data (H := Reference.helpers) ([Scenario.json_diff] ++ [JsonScenario.transfer])
  = OK JsonScenario.parsed /\
  exists address pre_account post_account,
    Reference.FixedBytes_fromhex 20 (strip0x (j_address JsonScenario.transfer))
    = OK address /\
    parse_optional_account (H := Reference.helpers)
      (j_preAccount JsonScenario.transfer) = OK pre_account /\
    parse_optional_account (H := Reference.helpers)
      (j_postAccount JsonScenario.transfer) = OK post_account /\
    (is_Some pre_account <-> is_Some (j_preAccount JsonScenario.transfer)) /\
    (is_Some post_account <-> is_Some (j_postAccount JsonScenario.transfer)) /\
    _main_trie JsonScenario.parsed !! address = Some (pre_account, post_account).
Proof.
  split; [exact from_data_transfer|].
  exact (from_data_last_account_pair (H := Reference.helpers)
           [Scenario.json_diff] JsonScenario.transfer _ from_data_transfer).
Defined.

(** ** Edges of the walker *)

(** X15. A byte string that is neither empty nor 32 bytes long is no node
    reference: a walk that meets it on the left raises [ValueError]
    before anything else; a walk that meets it on the right raises
    [ValueError] once the left side has resolved, and whatever the left
    side raises otherwise.  No leaf is reported. *)
Theorem malformed_reference_raises_ValueError `{Helpers} depth h
    (b : Bytes) (other : NodeRef) path self :
  b <> [] ->
  length b <> 32%nat ->
  other <> RExt (EBytes b) ->
  _compute_diff (S depth) h (RExt (EBytes b)) other path self = Raise ValueError /\
  _compute_diff (S depth) h other (RExt (EBytes b)) path self
  = (_ <- resolve other (_nodes self) ;; Raise ValueError).
Proof.
  intros Hne Hlen Hother.
  assert (Hbad : forall store, resolve (RExt (EBytes b)) store = Raise ValueError).
  { intros store. unfold resolve.
    destruct (bytes_eqb b []) eqn:Hempty; [apply bytes_eqb_eq in Hempty; contradiction|].
    destruct (Z.of_nat (length b) =? 32) eqn:H32; [|reflexivity].
    apply Z.eqb_eq in H32. lia. }
  cbn [_compute_diff]. split.
  - rewrite NodeRef_eqb_neq by congruence. rewrite Hbad. reflexivity.
  - rewrite NodeRef_eqb_neq by exact Hother. rewrite Hbad.
    destruct (resolve other (_nodes self)); reflexivity.
Qed.

Lemma malformed_reference_raises_ValueError_witness :
  let self := Scenario.accumulator Scenario.genesis in
  let h := _process_account_diff (H := Reference.helpers) 3 in
  let bad := RExt (EBytes [1; 2; 3]) in
  let root := RExt (EBytes (Scenario.hash 8)) in
  _compute_diff (H := Reference.helpers) 3 h bad root [] self = Raise ValueError /\
  _compute_diff (H := Reference.helpers) 3 h root bad [] self
  = (_ <- resolve (H := Reference.helpers) root (_nodes self) ;; Raise ValueError).
Proof.
  intros self h bad root.
  apply (malformed_reference_raises_ValueError (H := Reference.helpers) 2 h
           [1; 2; 3] root [] self); [discriminate | cbn; lia | discriminate].
Defined.

(** X16. Two references that both resolve to nothing give no diff, however
    the absence is written on either side ([None], the empty byte string,
    a hash that names no node). *)
Theorem absent_sides_give_no_diff `{Helpers} depth h left right path self :
  resolve left (_nodes self) = OK None ->
  resolve right (_nodes self) = OK None ->
  _compute_diff (S depth) h left right path self = OK self.
Proof.
  intros Hl Hr. cbn [_compute_diff].
  destruct (NodeRef_eqb left right); [reflexivity|]. rewrite Hl, Hr. reflexivity.
Qed.

Lemma absent_sides_give_no_diff_witness :
  let self := Scenario.accumulator Scenario.genesis in
  let h : LeafHandler := fun _ _ _ _ => Raise KeyError in
  _compute_diff (H := Reference.helpers) 1 h
    (RExt (EBytes [])) (RExt (EBytes (Scenario.hash 99))) [] self = OK self /\
  _compute_diff (H := Reference.helpers) 1 h
    RNone (RExt (EBytes [])) [] self = OK self.
Proof.
  intros self h. split;
    apply (absent_sides_give_no_diff (H := Reference.helpers));
    vm_compute; reflexivity.
Defined.

Lemma for_each_fast_path `{Helpers} depth h (subs : list Extended) path :
  (16 <= length subs)%nat ->
  forall (xs : list Z) self,
    Forall (fun i => 0 <= i < 16) xs ->
    for_each xs (fun i self =>
      l_subnode <- index subs i ;;
      r_subnode <- index subs i ;;
      _compute_diff (S depth) h (RExt l_subnode) (RExt r_subnode) (path ++ [i]) self)
      self = OK self.
Proof.
  intros Hlen. induction xs as [|x xs IH]; intros self Hxs; [reflexivity|].
  inversion Hxs as [|? ? Hx Hxs']; subst. cbn [for_each].
  unfold index at 1 2.
  destruct (nth_error subs (Z.to_nat x)) as [s|] eqn:Hnth.
  - cbn [bind _compute_diff]. rewrite NodeRef_eqb_refl. cbn [bind].
    apply IH. exact Hxs'.
  - apply nth_error_None in Hnth. lia.
Qed.

(** X17. Two references to the same node give no diff even when they are
    written differently (a hash on one side, the node itself or an inline
    list on the other): the walk descends one level and every pair of
    children is cut by the fast path.  For a branch this takes the helper
    to accept it and the sixteen slots to be there. *)
Theorem same_node_gives_no_diff `{Helpers} depth h left right path self node :
  resolve left (_nodes self) = OK (Some node) ->
  resolve right (_nodes self) = OK (Some node) ->
  (forall subnodes v, node = BranchNode subnodes v ->
     check_branch_node node = OK tt /\ (16 <= length subnodes)%nat) ->
  _compute_diff (S (S depth)) h left right path self = OK self.
Proof.
  intros Hl Hr Hbranch. cbn [_compute_diff].
  destruct (NodeRef_eqb left right); [reflexivity|]. rewrite Hl, Hr. cbn [bind].
  destruct node as [l|ks sub|subs v].
  - rewrite !bytes_eqb_refl. reflexivity.
  - rewrite bytes_eqb_refl, NodeRef_eqb_refl. reflexivity.
  - destruct (Hbranch subs v eq_refl) as [Hcheck Hlen]. rewrite Hcheck. cbn [bind].
    apply (for_each_fast_path depth h subs path Hlen).
    unfold range16. repeat constructor; lia.
Qed.

Lemma same_node_gives_no_diff_witness :
  let self := Scenario.accumulator Scenario.create_C in
  let h : LeafHandler := fun _ _ _ _ => Raise KeyError in
  _compute_diff (H := Reference.helpers) 2 h
    (RExt (EBytes (Scenario.hash 2))) (RNode Scenario.branch_AB) [1; 2] self
  = OK self.
Proof.
  intros self h.
  apply (same_node_gives_no_diff (H := Reference.helpers) 0 h _ _ _ _
           Scenario.branch_AB).
  - vm_compute. reflexivity.
  - reflexivity.
  - intros subnodes v [= <- <-]. split; [reflexivity | cbn; lia].
Defined.

(** X18. Two extensions whose key segments part ways (neither is a prefix
    of the other): the walk reports every leaf under the left one as
    deleted, in the order of the keys, and then every leaf under the
    right one as created. *)
Theorem diverging_extensions_delete_then_create `{Helpers} (h : LeafHandler)
    depth left right path self
    l_key_segment l_subnode r_key_segment r_subnode deleted created :
  (forall path l r self self',
     h path l r self = OK self' -> _nodes self' = _nodes self) ->
  resolve left (_nodes self) = OK (Some (ExtensionNode l_key_segment l_subnode)) ->
  resolve right (_nodes self) = OK (Some (ExtensionNode r_key_segment r_subnode)) ->
  startswith l_key_segment r_key_segment = false ->
  startswith r_key_segment l_key_segment = false ->
  leaves depth (_nodes self) (RExt l_subnode) (path ++ l_key_segment) = OK deleted ->
  leaves depth (_nodes self) (RExt r_subnode) (path ++ r_key_segment) = OK created ->
  _compute_diff (S depth) h left right path self
  = (self' <- for_each deleted (report_deleted h) self ;;
     for_each created (report_created h) self').
Proof.
  intros Hkeeps Hl Hr Hlr Hrl Hdeleted Hcreated.
  assert (Hne : l_key_segment <> r_key_segment).
  { intros ->. clear -Hlr. induction r_key_segment as [|x ks IH]; [discriminate|].
    cbn in Hlr. rewrite Z.eqb_refl in Hlr. auto. }
  cbn [_compute_diff].
  rewrite (resolved_apart _ _ _ _ _ Hl Hr) by congruence.
  rewrite Hl, Hr. cbn [bind].
  destruct (bytes_eqb l_key_segment r_key_segment) eqn:Heq;
    [apply bytes_eqb_eq in Heq; contradiction|].
  rewrite Hlr, Hrl.
  rewrite (deleted_leaves_reported (_nodes self) h Hkeeps depth _ _ self deleted
             eq_refl Hdeleted).
  destruct (for_each deleted (report_deleted h) self) as [self1|e] eqn:Hfirst;
    cbn [bind]; [|reflexivity].
  assert (Hstore : _nodes self1 = _nodes self).
  { rewrite <- (deleted_leaves_reported (_nodes self) h Hkeeps depth _ _ self deleted
                  eq_refl Hdeleted) in Hfirst.
    eapply _compute_diff_nodes; eassumption. }
  apply (created_leaves_reported (_nodes self) h Hkeeps); assumption.
Qed.

Lemma diverging_extensions_delete_then_create_witness :
  let self := Scenario.accumulator Diverging.tries in
  let h := _process_account_diff (H := Reference.helpers) 5 in
  let deleted := [(Scenario.key_A, Scenario.leaf_A); (Scenario.key_B, Scenario.leaf_B)] in
  let created := [(Diverging.key_D, Scenario.leaf_A); (Diverging.key_E, Scenario.leaf_B)] in
  leaves (H := Reference.helpers) 4 (_nodes self)
    (RExt (EBytes (Scenario.hash 2))) ([] ++ [1; 2]) = OK deleted /\
  leaves (H := Reference.helpers) 4 (_nodes self)
    (RExt (EBytes (Scenario.hash 41))) ([] ++ [1; 3]) = OK created /\
  _compute_diff (H := Reference.helpers) 5 h
    (RExt (EBytes (Scenario.hash 1))) (RExt (EBytes (Scenario.hash 40))) [] self
  = (self' <- for_each deleted (report_deleted h) self ;;
     for_each created (report_created h) self').
Proof.
  intros self h deleted created.
  assert (Hdeleted : leaves (H := Reference.helpers) 4 (_nodes self)
            (RExt (EBytes (Scenario.hash 2))) ([] ++ [1; 2]) = OK deleted)
    by (vm_compute; reflexivity).
  assert (Hcreated : leaves (H := Reference.helpers) 4 (_nodes self)
            (RExt (EBytes (Scenario.hash 41))) ([] ++ [1; 3]) = OK created)
    by (vm_compute; reflexivity).
  split; [exact Hdeleted|]. split; [exact Hcreated|].
  apply (diverging_extensions_delete_then_create (H := Reference.helpers) h 4
           _ _ [] self [1; 2] (EBytes (Scenario.hash 2))
           [1; 3] (EBytes (Scenario.hash 41)) deleted created).
  - intros p l r s s'. apply (_process_account_diff_nodes (H := Reference.helpers)).
  - vm_compute. reflexivity.
  - vm_compute. reflexivity.
  - reflexivity.
  - reflexivity.
  - exact Hdeleted.
  - exact Hcreated.
Defined.

(** The walk of the two tries at work: [A] and [B] are reported deleted
    under their old addresses and created under the new ones. *)
Lemma diverging_extensions_run :
  from_tries (H := Reference.helpers) 5 Diverging.tries
  = OK (mkStateDiff
          {[ Scenario.address_A := (Some Scenario.account_A, None);
             Scenario.address_B := (Some Scenario.account_B, None);
             Diverging.address_D := (None, Some Scenario.account_A);
             Diverging.address_E := (None, Some Scenario.account_B) ]}
          {[ Scenario.address_A := {[ Scenario.slot_number := (Some 5, None) ]};
             Diverging.address_D := {[ Scenario.slot_number := (None, Some 5) ]} ]}
          Diverging.store Diverging.addresses Scenario.slots).
Proof. vm_compute. reflexivity. Qed.

(** ** Enough depth *)





Section EnoughDepth.
Context {H : Helpers}.
Variable store : gmap Bytes InternalNode.
Variable h : LeafHandler.
Hypothesis handler_keeps_nodes :
  forall path l r self self',
    h path l r self = OK self' -> _nodes self' = _nodes self.





End EnoughDepth.



(** ** The account handler and the storage tries *)

(** X20. An account present on both sides with the same storage root (a
    change of balance or nonce only): the account handler records the
    pair and returns, the storage trie is not entered and no storage diff
    is written. *)
Theorem same_storage_root_records_the_pair_only `{Helpers} depth path
    (l r : LeafNode) self address left_account right_account :
  _address_preimages self !! path = Some address ->
  Account_from_rlp (value l) = OK left_account ->
  Account_from_rlp (value r) = OK right_account ->
  storage_root left_account = storage_root right_account ->
  _process_account_diff (S depth) path (Some l) (Some r) self
  = OK (set_main_trie self
          (<[address := (Some left_account, Some right_account)]> (_main_trie self))).
Proof.
  intros Hpre Hl Hr Hroot. unfold _process_account_diff, getitem.
  rewrite Hpre. cbn [bind decode_account]. rewrite Hl, Hr. cbn [bind storage_root_ref].
  rewrite Hroot. cbn [_compute_diff]. rewrite NodeRef_eqb_refl. reflexivity.
Qed.

(** X21. A created account: the account handler records [(None, account)]
    and then reports every leaf of the account's storage trie to the
    storage handler bound to the address, as a creation, in the order of
    the keys.  A deleted account: the same with the sides exchanged. *)
Theorem one_sided_account_reports_its_storage `{Helpers} depth path
    (leaf : LeafNode) self address account found :
  _address_preimages self !! path = Some address ->
  Account_from_rlp (value leaf) = OK account ->
  leaves depth (_nodes self) (RExt (EBytes (storage_root account))) [] = OK found ->
  _process_account_diff depth path None (Some leaf) self
  = for_each found (report_created (_process_storage_diff address))
      (set_main_trie self (<[address := (None, Some account)]> (_main_trie self))) /\
  _process_account_diff depth path (Some leaf) None self
  = for_each found (report_deleted (_process_storage_diff address))
      (set_main_trie self (<[address := (Some account, None)]> (_main_trie self))).
Proof.
  intros Hpre Hacc Hfound. unfold _process_account_diff, getitem.
  rewrite Hpre. cbn [bind decode_account]. rewrite Hacc. cbn [bind storage_root_ref].
  split.
  - eapply created_leaves_reported; [|reflexivity|exact Hfound].
    intros p l r s s'. apply _process_storage_diff_nodes.
  - eapply deleted_leaves_reported; [|reflexivity|exact Hfound].
    intros p l r s s'. apply _process_storage_diff_nodes.
Qed.

Lemma same_storage_root_records_the_pair_only_witness :
  let self := Scenario.accumulator Scenario.create_C in
  let richer :=
    mkLeafNode (Scenario.zeros 61)
      (Scenario.account_rlp 1 11 (Scenario.hash 20) (Scenario.hash 30)) in
  let account_richer := mkAccount 1 11 (Scenario.hash 30) (Scenario.hash 20) None in
  _process_account_diff (H := Reference.helpers) 1 Scenario.key_A
    (Some Scenario.leaf_A) (Some richer) self
  = OK (set_main_trie self
          (<[Scenario.address_A := (Some Scenario.account_A, Some account_richer)]>
             (_main_trie self))).
Proof.
  intros self richer account_richer.
  apply (same_storage_root_records_the_pair_only (H := Reference.helpers) 0
           Scenario.key_A Scenario.leaf_A richer self).
  - vm_compute. reflexivity.
  - vm_compute. reflexivity.
  - vm_compute. reflexivity.
  - reflexivity.
Defined.

Lemma one_sided_account_reports_its_storage_witness :
  let self := Scenario.accumulator Scenario.genesis in
  let found := [(Scenario.key_slot, Scenario.slot_of_C)] in
  let h := _process_storage_diff (H := Reference.helpers) Scenario.address_C in
  leaves (H := Reference.helpers) 2 (_nodes self)
    (RExt (EBytes (storage_root Scenario.account_C))) [] = OK found /\
  _process_account_diff (H := Reference.helpers) 2 Scenario.key_C
    None (Some Scenario.genesis_leaf) self
  = for_each found (report_created h)
      (set_main_trie self
         (<[Scenario.address_C := (None, Some Scenario.account_C)]> (_main_trie self))) /\
  _process_account_diff (H := Reference.helpers) 2 Scenario.key_C
    (Some Scenario.genesis_leaf) None self
  = for_each found (report_deleted h)
      (set_main_trie self
         (<[Scenario.address_C := (Some Scenario.account_C, None)]> (_main_trie self))).
Proof.
  intros self found h.
  assert (Hfound : leaves (H := Reference.helpers) 2 (_nodes self)
            (RExt (EBytes (storage_root Scenario.account_C))) [] = OK found)
    by (vm_compute; reflexivity).
  split; [exact Hfound|].
  apply (one_sided_account_reports_its_storage (H := Reference.helpers) 2
           Scenario.key_C Scenario.genesis_leaf self Scenario.address_C
           Scenario.account_C found).
  - vm_compute. reflexivity.
  - vm_compute. reflexivity.
  - exact Hfound.
Defined.
